(** * Snake game (src/app/page.tsx): the game state and its transitions

    The component [SnakeGame] keeps seven React state cells.  The
    embedding below puts them in one record, writes every state setter
    as a record update, and writes each callback of the component as a
    function on that record.  Randomness is an explicit list of
    draws that the callbacks consume from the left. *)

From Stdlib Require Import ZArith QArith Qabs List Bool String Lia.
From Stdlib Require Import Relations.Relation_Operators.
From Stdlib Require Import DecimalString.
Import ListNotations.
Local Open Scope Z_scope.

(** ** Data model *)

(** [type Position = { x: number; y: number }] *)
Record Position : Type := mkPosition { x : Z; y : Z }.

(** [type Direction = 'UP' | 'DOWN' | 'LEFT' | 'RIGHT'] *)
Inductive Direction : Type := UP | DOWN | LEFT | RIGHT.

Definition gridSize : Z := 20.
Definition initialSpeed : Z := 150.

(** The [useState] cells of the component, in declaration order. *)
Record GameState : Type := mkGame {
  snake : list Position;
  food : Position;
  direction : Direction;
  gameOver : bool;
  isPaused : bool;
  score : Z;
  speed : Z
}.

(** The values handed to [useState] on the first render. *)
Definition initialState : GameState :=
  {| snake := [mkPosition 10 10];
     food := mkPosition 5 5;
     direction := RIGHT;
     gameOver := false;
     isPaused := true;
     score := 0;
     speed := initialSpeed |}.

Section Setters.
Variable st : GameState.

Definition setSnake (v : list Position) : GameState :=
  mkGame v (food st) (direction st) (gameOver st) (isPaused st) (score st) (speed st).
Definition setFood (v : Position) : GameState :=
  mkGame (snake st) v (direction st) (gameOver st) (isPaused st) (score st) (speed st).
Definition setDirection (v : Direction) : GameState :=
  mkGame (snake st) (food st) v (gameOver st) (isPaused st) (score st) (speed st).
Definition setGameOver (v : bool) : GameState :=
  mkGame (snake st) (food st) (direction st) v (isPaused st) (score st) (speed st).
Definition setIsPaused (v : bool) : GameState :=
  mkGame (snake st) (food st) (direction st) (gameOver st) v (score st) (speed st).
Definition setScore (v : Z) : GameState :=
  mkGame (snake st) (food st) (direction st) (gameOver st) (isPaused st) v (speed st).
Definition setSpeed (v : Z) : GameState :=
  mkGame (snake st) (food st) (direction st) (gameOver st) (isPaused st) (score st) v.
End Setters.

(** [a.x === b.x && a.y === b.y] *)
Definition samePos (a b : Position) : bool :=
  (x a =? x b) && (y a =? y b).

(** [d1 !== d2] is [negb (direction_eqb d1 d2)]. *)
Definition direction_eqb (d1 d2 : Direction) : bool :=
  match d1, d2 with
  | UP, UP | DOWN, DOWN | LEFT, LEFT | RIGHT, RIGHT => true
  | _, _ => false
  end.

(** ** Randomness

    The component uses [Math.random] in one expression only,
    [Math.floor(Math.random() * gridSize)].  A draw is the number that
    expression evaluates to; the engine computes it in floating point
    and the model takes it as given.  A computation reads draws from a
    finite supply and hands back what is left; [None] means the supply
    ran out before the computation returned. *)
Definition Rand (A : Type) : Type := list Z -> option (A * list Z).

Definition ret {A : Type} (a : A) : Rand A :=
  fun draws => Some (a, draws).

Definition bind {A B : Type} (m : Rand A) (k : A -> Rand B) : Rand B :=
  fun draws =>
    match m draws with
    | Some (a, rest) => k a rest
    | None => None
    end.

Notation "v <- m ;; k" := (bind m (fun v => k))
  (at level 61, m at next level, right associativity).

(** ** Food placement (lines 39-55)

    [segments] is the [snake] the callback closed over: [useCallback]
    rebuilds [generateFood] only when the rendered [snake] changes, so
    the body it tests is the one of the render that created it.  Every
    attempt takes two draws, [x] first; a candidate on the body makes
    the function call itself again. *)
Fixpoint generateFood (segments : list Position) (draws : list Z)
  {struct draws} : option (Position * list Z) :=
  match draws with
  | rx :: ry :: rest =>
      let newFood := {| x := rx; y := ry |} in
      let isOnSnake :=
        existsb (fun segment =>
                   (x segment =? x newFood) && (y segment =? y newFood))
                segments in
      if isOnSnake then generateFood segments rest
      else Some (newFood, rest)
  | _ => None
  end.

(** ** What a callback hands to React

    [snakeReplaced] records whether the [snake] cell received a fresh
    array.  When the updater returns [prevSnake] itself the cell keeps
    its identity and nothing that depends on [snake] is rebuilt. *)
Record Update : Type := mkUpdate {
  next : GameState;
  snakeReplaced : bool
}.

(** ** The interval callback (lines 115-172) *)

(** The [switch (directionRef.current)] on a copy of [prevSnake[0]]. *)
Definition moveHead (d : Direction) (seg0 : Position) : Position :=
  match d with
  | UP => {| x := x seg0; y := y seg0 - 1 |}
  | DOWN => {| x := x seg0; y := y seg0 + 1 |}
  | LEFT => {| x := x seg0 - 1; y := y seg0 |}
  | RIGHT => {| x := x seg0 + 1; y := y seg0 |}
  end.

(** [head.x < 0 || head.x >= gridSize || head.y < 0 || head.y >= gridSize] *)
Definition hitsWall (head : Position) : bool :=
  (x head <? 0) || (x head >=? gridSize) || (y head <? 0) || (y head >=? gridSize).

(** [Array.prototype.some] with the two-argument callback. *)
Fixpoint someFrom {A : Type} (f : A -> nat -> bool) (index : nat) (l : list A) : bool :=
  match l with
  | [] => false
  | a :: l' => f a index || someFrom f (S index) l'
  end.

(** [prevSnake.some((segment, index) =>
       index > 0 && segment.x === head.x && segment.y === head.y)] *)
Definition hitsSelf (prevSnake : list Position) (head : Position) : bool :=
  someFrom (fun segment index =>
              (0 <? index)%nat && ((x segment =? x head) && (y segment =? y head)))
           0%nat prevSnake.

(** The callback reads [food], [speed] and [generateFood] from the
    render that armed the interval; the interval is re-armed whenever
    one of the three changes, so they are the cells of [st].  An empty
    [prevSnake] gives a head without coordinates: no test succeeds on
    it, it is pushed and popped again, and a fresh empty array comes
    back. *)
Definition moveSnake (st : GameState) : Rand Update :=
  match snake st with
  | [] => ret (mkUpdate st true)
  | seg0 :: _ =>
      let head := moveHead (direction st) seg0 in
      if hitsWall head then
        ret (mkUpdate (setGameOver st true) false)
      else if hitsSelf (snake st) head then
        ret (mkUpdate (setGameOver st true) false)
      else
        let newSnake := head :: snake st in
        if (x head =? x (food st)) && (y head =? y (food st)) then
          newFood <- generateFood (snake st) ;;
          let st1 := setFood st newFood in
          let st2 := setScore st1 (score st1 + 10) in
          let st3 := if speed st >? 50 then setSpeed st2 (speed st2 - 2) else st2 in
          ret (mkUpdate (setSnake st3 newSnake) true)
        else
          ret (mkUpdate (setSnake st (removelast newSnake)) true)
  end.

(** ** Placement effect (lines 58-60)

    [useEffect(() => setFood(generateFood()), [generateFood])] runs on
    mount and again after every commit in which [generateFood] was
    rebuilt, that is, in which [snake] received a fresh array. *)
Definition initFoodEffect (st : GameState) : Rand GameState :=
  newFood <- generateFood (snake st) ;;
  ret (setFood st newFood).

(** The commit that follows a callback.  [generateFood] comes from
    [useCallback] with dependencies [snake, gridSize], and the
    placement effect depends on [generateFood] alone: a fresh [snake]
    array makes the effect draw the food again, against the body just
    committed; a callback that returned [prevSnake] leaves it idle. *)
Definition commit (u : Update) : Rand GameState :=
  if snakeReplaced u then initFoodEffect (next u) else ret (next u).

(** One firing of the interval, up to the next stable render. *)
Definition advance (st : GameState) : Rand GameState :=
  u <- moveSnake st ;; commit u.

(** First render followed by its effects. *)
Definition mount : Rand GameState := initFoodEffect initialState.

(** ** Restart (lines 179-187) *)
Definition resetGame (st : GameState) : Rand Update :=
  newFood <- generateFood (snake st) ;;
  ret (mkUpdate
         {| snake := [mkPosition 10 10];
            food := newFood;
            direction := RIGHT;
            gameOver := false;
            isPaused := false;
            score := 0;
            speed := initialSpeed |}
         true).

(** A click on Restart or Play Again, up to the next stable render. *)
Definition restart (st : GameState) : Rand GameState :=
  u <- resetGame st ;; commit u.

(** ** Input handlers *)

Definition keyIs (key : string) (names : list string) : bool :=
  existsb (String.eqb key) names.

(** The [keydown] listener (lines 64-103).  [gameOverRef] and
    [directionRef] are copied from the cells after every render. *)
Definition handleKeyDown (st : GameState) (key : string) : GameState :=
  if gameOver st then st
  else if keyIs key ["ArrowUp"; "w"; "W"]%string then
    if negb (direction_eqb (direction st) DOWN) then setDirection st UP else st
  else if keyIs key ["ArrowDown"; "s"; "S"]%string then
    if negb (direction_eqb (direction st) UP) then setDirection st DOWN else st
  else if keyIs key ["ArrowLeft"; "a"; "A"]%string then
    if negb (direction_eqb (direction st) RIGHT) then setDirection st LEFT else st
  else if keyIs key ["ArrowRight"; "d"; "D"]%string then
    if negb (direction_eqb (direction st) LEFT) then setDirection st RIGHT else st
  else if keyIs key [" "]%string then
    setIsPaused st (negb (isPaused st))
  else st.

(** The on-screen arrow buttons (lines 190-202). *)
Definition handleDirectionChange (st : GameState) (newDirection : Direction) : GameState :=
  if gameOver st then st
  else if (direction_eqb newDirection UP && negb (direction_eqb (direction st) DOWN))
       || (direction_eqb newDirection DOWN && negb (direction_eqb (direction st) UP))
       || (direction_eqb newDirection LEFT && negb (direction_eqb (direction st) RIGHT))
       || (direction_eqb newDirection RIGHT && negb (direction_eqb (direction st) LEFT))
  then setDirection st newDirection
  else st.

(** Swipes (lines 245-280), on the coordinates of the touch that began
    the gesture and of the current one.  A start coordinate of [0] is
    falsy and makes the handler return at once. *)
Definition handleTouchMove (st : GameState)
    (touchStartX touchStartY touchEndX touchEndY : Q) : GameState :=
  if Qeq_bool touchStartX 0 || Qeq_bool touchStartY 0 || gameOver st then st
  else
    let diffX := (touchStartX - touchEndX)%Q in
    let diffY := (touchStartY - touchEndY)%Q in
    if negb (Qle_bool (Qabs diffX) (Qabs diffY)) then
      if negb (Qle_bool diffX 0) && negb (direction_eqb (direction st) RIGHT) then
        setDirection st LEFT
      else if negb (Qle_bool 0 diffX) && negb (direction_eqb (direction st) LEFT) then
        setDirection st RIGHT
      else st
    else
      if negb (Qle_bool diffY 0) && negb (direction_eqb (direction st) DOWN) then
        setDirection st UP
      else if negb (Qle_bool 0 diffY) && negb (direction_eqb (direction st) UP) then
        setDirection st DOWN
      else st.

(** The Start / Pause button: [setIsPaused(!isPaused)]. *)
Definition togglePause (st : GameState) : GameState :=
  setIsPaused st (negb (isPaused st)).

(** ** Runs of the game

    One step is a firing of the interval or one input event other than
    Restart.  The interval is cleared only when one of its dependencies
    changes, so a firing is not tied to the pause and game-over flags. *)
Inductive step : GameState -> GameState -> Prop :=
| step_tick : forall st draws st' rest,
    advance st draws = Some (st', rest) -> step st st'
| step_key : forall st key, step st (handleKeyDown st key)
| step_button : forall st d, step st (handleDirectionChange st d)
| step_touch : forall st sx sy ex ey, step st (handleTouchMove st sx sy ex ey)
| step_pause : forall st, step st (togglePause st).

(** Any number of steps. *)
Definition steps : GameState -> GameState -> Prop :=
  clos_refl_trans_1n GameState step.

(** Every state the component can show: the first render, the state
    after its effects, whatever steps and restarts lead to, and the
    state a tick or a restart commits before the placement effect has
    written the food again. *)
Inductive reachable : GameState -> Prop :=
| reach_first_render : reachable initialState
| reach_mount : forall draws st rest,
    mount draws = Some (st, rest) -> reachable st
| reach_step : forall st st',
    reachable st -> step st st' -> reachable st'
| reach_restart : forall st draws st' rest,
    reachable st -> restart st draws = Some (st', rest) -> reachable st'
| reach_moveSnake : forall st draws u rest,
    reachable st -> moveSnake st draws = Some (u, rest) -> reachable (next u)
| reach_resetGame : forall st draws u rest,
    reachable st -> resetGame st draws = Some (u, rest) -> reachable (next u).

(** ** Vocabulary of the specification *)

(** The pairs UP/DOWN and LEFT/RIGHT. *)
Definition opposite (d : Direction) : Direction :=
  match d with
  | UP => DOWN
  | DOWN => UP
  | LEFT => RIGHT
  | RIGHT => LEFT
  end.

(** Membership of a cell in a body, as a test. *)
Definition onSnake (p : Position) (segments : list Position) : bool :=
  existsb (fun segment => samePos segment p) segments.



(** The key names the listener maps to each direction. *)
Definition keysFor (d : Direction) : list string :=
  match d with
  | UP => ["ArrowUp"; "w"; "W"]%string
  | DOWN => ["ArrowDown"; "s"; "S"]%string
  | LEFT => ["ArrowLeft"; "a"; "A"]%string
  | RIGHT => ["ArrowRight"; "d"; "D"]%string
  end.

(** ** Sample states and draws *)

(** A one-cell snake at (1,1) heading right with the food one cell ahead. *)
Definition scenarioEat : GameState :=
  {| snake := [mkPosition 1 1];
     food := mkPosition 2 1;
     direction := RIGHT;
     gameOver := false;
     isPaused := false;
     score := 0;
     speed := 150 |}.

(** A snake on the left edge heading left. *)
Definition scenarioWall : GameState :=
  {| snake := [mkPosition 0 5; mkPosition 1 5];
     food := mkPosition 7 7;
     direction := LEFT;
     gameOver := false;
     isPaused := false;
     score := 10;
     speed := 148 |}.

(** A bent snake whose head faces its own second segment. *)
Definition scenarioBite : GameState :=
  {| snake := [mkPosition 5 5; mkPosition 6 5; mkPosition 6 6];
     food := mkPosition 7 7;
     direction := RIGHT;
     gameOver := false;
     isPaused := false;
     score := 20;
     speed := 146 |}.

(** A two-cell snake that has just moved right. *)
Definition scenarioTurn : GameState :=
  {| snake := [mkPosition 5 5; mkPosition 4 5];
     food := mkPosition 15 15;
     direction := RIGHT;
     gameOver := false;
     isPaused := true;
     score := 10;
     speed := 148 |}.

(** A finished game with the snake away from the centre. *)
Definition scenarioOver : GameState :=
  {| snake := [mkPosition 3 3];
     food := mkPosition 7 7;
     direction := UP;
     gameOver := true;
     isPaused := false;
     score := 30;
     speed := 144 |}.

(** Draws for the cells (2,1) and then (10,10): [Math.random] gave
    0.1, 0.05, 0.5, 0.5. *)
Definition drawsAheadThenCentre : list Z := [2; 1; 10; 10].

(** Draws for the cells (10,10), (10,10) and then (2,1). *)
Definition drawsCentreTwice : list Z := [10; 10; 10; 10; 2; 1].

(** ** Rendering (lines 205-234) *)

(** A grid [div]: its React key and its class attribute. *)
Record Cell : Type := mkCell { key : string; className : string }.

(** A number inside a template literal. *)
Definition numberToString (n : Z) : string :=
  NilZero.string_of_int (Z.to_int n).

(** The values of [i] in [for (let i = 0; i < n; i++)]. *)
Definition upTo (n : Z) : list Z := map Z.of_nat (seq 0 (Z.to_nat n)).

(** The body of the inner loop for the cell in column [cx] of row
    [cy]; [seg0] is [snake[0]] and [snake.slice(1)] is the tail. *)
Definition cellAt (st : GameState) (seg0 : Position) (cx cy : Z) : Cell :=
  let isSnakeHead := (x seg0 =? cx) && (y seg0 =? cy) in
  let isSnakeBody :=
    existsb (fun segment => (x segment =? cx) && (y segment =? cy))
            (tl (snake st)) in
  let isFood := (x (food st) =? cx) && (y (food st) =? cy) in
  let cellClass := "cell"%string in
  let cellClass :=
    if isSnakeHead then (cellClass ++ " snake-head")%string
    else if isSnakeBody then (cellClass ++ " snake")%string
    else if isFood then (cellClass ++ " food")%string
    else cellClass in
  {| key := (numberToString cx ++ "-" ++ numberToString cy)%string;
     className := cellClass |}.

(** Rows first, columns inside.  Reading [snake[0].x] on an empty
    array throws in the first iteration: [None]. *)
Definition renderGrid (st : GameState) : option (list Cell) :=
  match snake st with
  | [] => None
  | seg0 :: _ =>
      Some (flat_map
              (fun cy => map (fun cx => cellAt st seg0 cx cy) (upTo gridSize))
              (upTo gridSize))
  end.

(** ** Vocabulary for the properties of runs *)

(** A cell of the board. *)
Definition inGrid (p : Position) : Prop :=
  0 <= x p < gridSize /\ 0 <= y p < gridSize.

(** Two cells that share a side. *)
Definition adjacent (a b : Position) : Prop :=
  Z.abs (x a - x b) + Z.abs (y a - y b) = 1.

(** Each segment touches the one behind it. *)
Fixpoint chain (l : list Position) : Prop :=
  match l with
  | a :: ((b :: _) as l') => adjacent a b /\ chain l'
  | _ => True
  end.

(** A well-shaped body: not empty, no cell twice, on the board, in one
    piece. *)
Definition snakeOk (s : list Position) : Prop :=
  s <> [] /\ NoDup s /\ Forall inGrid s /\ chain s.

(** The cells a supply of draws proposes, in order. *)
Fixpoint candidates (draws : list Z) : list Position :=
  match draws with
  | rx :: ry :: rest => mkPosition rx ry :: candidates rest
  | _ => []
  end.

(** A draw that is a row or column of the board. *)
Definition inBoard (v : Z) : bool := (0 <=? v) && (v <? gridSize).

(** A body on every cell of the board. *)
Definition fullGrid : list Position :=
  flat_map (fun cy => map (fun cx => mkPosition cx cy) (upTo gridSize))
           (upTo gridSize).

(** The cells an input handler leaves alone. *)
Definition boardKept (st st' : GameState) : Prop :=
  snake st' = snake st /\ food st' = food st /\ gameOver st' = gameOver st /\
  score st' = score st /\ speed st' = speed st.

(** The length of a body as a number. *)
Definition segments_count (st : GameState) : Z :=
  Z.of_nat (List.length (snake st)).

(** The state after the first tick of a fresh game when the draws
    are 10 and 10. *)
Definition afterFirstTick : GameState :=
  {| snake := [mkPosition 11 10];
     food := mkPosition 10 10;
     direction := RIGHT;
     gameOver := false;
     isPaused := true;
     score := 0;
     speed := 150 |}.

(** The four ways a firing of the interval can end, with the state it
    leaves; [newFood] is whatever ends up in the food cell. *)
Inductive ticked (st : GameState) : GameState -> Prop :=
| ticked_empty : forall newFood,
    snake st = [] ->
    ticked st (setFood st newFood)
| ticked_fatal : forall seg0 tl,
    snake st = seg0 :: tl ->
    hitsWall (moveHead (direction st) seg0) = true \/
    hitsSelf (snake st) (moveHead (direction st) seg0) = true ->
    ticked st (setGameOver st true)
| ticked_eats : forall seg0 tl newFood,
    snake st = seg0 :: tl ->
    hitsWall (moveHead (direction st) seg0) = false ->
    hitsSelf (snake st) (moveHead (direction st) seg0) = false ->
    moveHead (direction st) seg0 = food st ->
    ticked st
      {| snake := moveHead (direction st) seg0 :: snake st;
         food := newFood;
         direction := direction st;
         gameOver := gameOver st;
         isPaused := isPaused st;
         score := score st + 10;
         speed := if speed st >? 50 then speed st - 2 else speed st |}
| ticked_slides : forall seg0 tl newFood,
    snake st = seg0 :: tl ->
    hitsWall (moveHead (direction st) seg0) = false ->
    hitsSelf (snake st) (moveHead (direction st) seg0) = false ->
    moveHead (direction st) seg0 <> food st ->
    ticked st
      {| snake := removelast (moveHead (direction st) seg0 :: snake st);
         food := newFood;
         direction := direction st;
         gameOver := gameOver st;
         isPaused := isPaused st;
         score := score st;
         speed := speed st |}.

(** The next move of the snake is a hit. *)
Definition fatalAhead (st : GameState) : Prop :=
  match snake st with
  | [] => False
  | seg0 :: _ =>
      hitsWall (moveHead (direction st) seg0) = true \/
      hitsSelf (snake st) (moveHead (direction st) seg0) = true
  end.

(** What holds in every state the component can show. *)
Definition gameOk (st : GameState) : Prop :=
  snakeOk (snake st) /\
  score st = 10 * (segments_count st - 1) /\
  speed st = Z.max 50 (150 - 2 * (segments_count st - 1)) /\
  (gameOver st = true -> fatalAhead st).

(** What an input handler may do: keep the board, and never turn the
    snake round. *)
Definition gentleInput (st st' : GameState) : Prop :=
  boardKept st st' /\ direction st' <> opposite (direction st).

(** [n] firings of the interval in a row. *)
Fixpoint run (n : nat) (st : GameState) : Rand GameState :=
  match n with
  | O => ret st
  | S k => st1 <- advance st ;; run k st1
  end.

(** A fresh game, unpaused, that ran straight into the right wall while
    every draw was 10. *)
Definition crashed : GameState :=
  {| snake := [mkPosition 19 10];
     food := mkPosition 10 10;
     direction := RIGHT;
     gameOver := true;
     isPaused := false;
     score := 0;
     speed := 150 |}.

(** Twenty draws of the number 10. *)
Definition drawsHalves : list Z := repeat 10 20.

(** No string occurs twice. *)
Fixpoint allDistinct (l : list string) : bool :=
  match l with
  | [] => true
  | a :: l' => negb (existsb (String.eqb a) l') && allDistinct l'
  end.

(** ** The game loop (lines 112-176)

    The component together with its timer: [armed] tells whether a
    live [setInterval] exists. *)
Record App : Type := mkApp { game : GameState; armed : bool }.

(** One run of the game-loop effect.  Its clean-up has cleared the
    interval of the previous run; a new one is set unless
    [isPausedRef] or [gameOverRef] holds [true].  Both refs are copied
    from the cells by the effect declared ahead of this one. *)
Definition gameLoopEffect (g : GameState) : bool :=
  negb (isPaused g || gameOver g).

(** The commit after a callback, with the timer.  The effect depends
    on [food], [generateFood] and [speed].  A fresh [snake] array
    rebuilds [generateFood] and makes the placement effect store a
    fresh [food]; [speed] is written only together with [snake]; a
    callback that returns [prevSnake] writes none of the three. *)
Definition settle (a : App) (u : Update) : Rand App :=
  g <- commit u ;;
  ret {| game := g;
         armed := if snakeReplaced u then gameLoopEffect g else armed a |}.

(** First render and its effects. *)
Definition appMount : Rand App :=
  g <- mount ;; ret {| game := g; armed := gameLoopEffect g |}.

(** A firing of a live interval. *)
Definition appTick (a : App) : Rand App :=
  u <- moveSnake (game a) ;; settle a u.

(** A click on Restart or Play Again. *)
Definition appRestart (a : App) : Rand App :=
  u <- resetGame (game a) ;; settle a u.

(** An input handler writes [direction] or [isPaused] only, which the
    game-loop effect does not depend on. *)
Definition onInput (h : GameState -> GameState) (a : App) : App :=
  {| game := h (game a); armed := armed a |}.

(** One event of the component other than Restart; the interval fires
    only while it is live. *)
Inductive appStep : App -> App -> Prop :=
| app_tick : forall a draws a' rest,
    armed a = true -> appTick a draws = Some (a', rest) -> appStep a a'
| app_key : forall a k,
    appStep a (onInput (fun g => handleKeyDown g k) a)
| app_button : forall a d,
    appStep a (onInput (fun g => handleDirectionChange g d) a)
| app_touch : forall a sx sy ex ey,
    appStep a (onInput (fun g => handleTouchMove g sx sy ex ey) a)
| app_pause : forall a,
    appStep a (onInput togglePause a).

Definition appSteps : App -> App -> Prop :=
  clos_refl_trans_1n App appStep.

(** The component after its first render when the draws are
    (10,10), (10,10) and (2,1). *)
Definition mountedApp : App :=
  {| game := setFood initialState (mkPosition 2 1); armed := false |}.

(** A game under way: restarted, heading right from (12,10). *)
Definition runningApp : App :=
  {| game := {| snake := [mkPosition 12 10];
                food := mkPosition 2 1;
                direction := RIGHT;
                gameOver := false;
                isPaused := false;
                score := 0;
                speed := 150 |};
     armed := true |}.

(** A restarted game that has eaten once: the food lay one cell ahead
    of the start. *)
Definition afterMeal : GameState :=
  {| snake := [mkPosition 11 10; mkPosition 10 10];
     food := mkPosition 2 1;
     direction := RIGHT;
     gameOver := false;
     isPaused := false;
     score := 10;
     speed := 148 |}.

(** Every key the listener reacts to. *)
Definition knownKeys : list string :=
  (keysFor UP ++ keysFor DOWN ++ keysFor LEFT ++ keysFor RIGHT ++ [" "])%list%string.

(** * Properties *)


(** ** Cells and bodies *)

Lemma samePos_true_iff : forall a b, samePos a b = true <-> a = b.
Proof.
  intros [ax ay] [bx by_]; unfold samePos; simpl.
  rewrite andb_true_iff, !Z.eqb_eq.
  split.
  - intros [-> ->]; reflexivity.
  - intros H; inversion H; split; reflexivity.
Qed.

Lemma samePos_false_iff : forall a b, samePos a b = false <-> a <> b.
Proof.
  intros a b; rewrite <- samePos_true_iff.
  destruct (samePos a b); split; congruence.
Qed.

Lemma onSnake_In : forall p segments, onSnake p segments = true <-> In p segments.
Proof.
  intros p segments; unfold onSnake.
  rewrite existsb_exists; split.
  - intros [q [Hin Hq]]. apply samePos_true_iff in Hq. subst q. exact Hin.
  - intros Hin. exists p. split; [exact Hin | apply samePos_true_iff; reflexivity].
Qed.

Lemma onSnake_not_In : forall p segments, onSnake p segments = false <-> ~ In p segments.
Proof.
  intros p segments; rewrite <- onSnake_In.
  destruct (onSnake p segments); split; congruence.
Qed.

Lemma moveHead_moves : forall d seg0, moveHead d seg0 <> seg0.
Proof.
  intros d [sx sy] H; destruct d; simpl in H; inversion H; lia.
Qed.

Lemma someFrom_positive_index :
  forall (p : Position -> bool) l n,
    someFrom (fun segment index => (0 <? index)%nat && p segment) (S n) l
    = existsb p l.
Proof.
  intros p l; induction l as [|a l IH]; intros n; simpl.
  - reflexivity.
  - rewrite IH. reflexivity.
Qed.

(** The index test leaves exactly the segments behind the head. *)
Lemma hitsSelf_cons :
  forall seg0 tl head, hitsSelf (seg0 :: tl) head = onSnake head tl.
Proof.
  intros seg0 tl head; unfold hitsSelf, onSnake; simpl.
  apply (someFrom_positive_index (fun segment => samePos segment head)).
Qed.

Lemma hitsWall_true_iff :
  forall head,
    hitsWall head = true <->
    (x head < 0 \/ gridSize <= x head \/ y head < 0 \/ gridSize <= y head).
Proof.
  intros head; unfold hitsWall.
  rewrite !orb_true_iff, !Z.ltb_lt, !Z.geb_le. tauto.
Qed.

(** ** Food placement *)

(** Induction over a supply of draws read two at a time. *)
Lemma draws_pair_ind :
  forall (P : list Z -> Prop),
    P [] -> (forall r, P [r]) ->
    (forall rx ry rest, P rest -> P (rx :: ry :: rest)) ->
    forall draws, P draws.
Proof.
  intros P Hnil Hone Hpair draws.
  assert (H : P draws /\ forall r, P (r :: draws)).
  { induction draws as [|r0 draws [IH1 IH2]].
    - split; [exact Hnil | exact Hone].
    - split; [apply IH2 | intros r; apply Hpair; exact IH1]. }
  exact (proj1 H).
Qed.

(** Whatever [generateFood] returns is off the body it closed over. *)
Lemma generateFood_off_segments :
  forall segments draws newFood rest,
    generateFood segments draws = Some (newFood, rest) ->
    ~ In newFood segments.
Proof.
  intros segments draws; induction draws as [| r | rx ry draws IH] using draws_pair_ind;
    intros newFood rest H; simpl in H; try discriminate.
  destruct (existsb _ segments) eqn:Hon.
  - eapply IH; exact H.
  - inversion H; subst. apply onSnake_not_In. exact Hon.
Qed.

(** A first candidate off the body is returned at once. *)
Lemma generateFood_first_free :
  forall segments rx ry rest,
    ~ In (mkPosition rx ry) segments ->
    generateFood segments (rx :: ry :: rest)
    = Some (mkPosition rx ry, rest).
Proof.
  intros segments rx ry rest Hfree; simpl.
  apply onSnake_not_In in Hfree. unfold onSnake, samePos in Hfree; simpl in Hfree.
  rewrite Hfree. reflexivity.
Qed.

(** A supply that holds a free candidate at an even position makes the
    placement return. *)
Lemma generateFood_returns :
  forall segments skipped rx ry rest,
    Nat.even (List.length skipped) = true ->
    ~ In (mkPosition rx ry) segments ->
    exists newFood left,
      generateFood segments (skipped ++ rx :: ry :: rest) = Some (newFood, left).
Proof.
  intros segments skipped rx ry rest.
  induction skipped as [| r | sx sy skipped IH] using draws_pair_ind;
    intros Heven Hfree.
  - exists (mkPosition rx ry), rest.
    apply generateFood_first_free. exact Hfree.
  - discriminate Heven.
  - destruct (IH Heven Hfree) as [f [r Hg]].
    change ((sx :: sy :: skipped) ++ rx :: ry :: rest)
      with (sx :: sy :: (skipped ++ rx :: ry :: rest)).
    cbn [generateFood].
    destruct (existsb _ segments).
    + exists f, r. exact Hg.
    + eexists; eexists; reflexivity.
Qed.

(** ** The commit touches [food] only *)

Lemma initFoodEffect_inv :
  forall st draws st' rest,
    initFoodEffect st draws = Some (st', rest) ->
    exists newFood,
      generateFood (snake st) draws = Some (newFood, rest) /\
      st' = setFood st newFood.
Proof.
  intros st draws st' rest H; unfold initFoodEffect, bind, ret in H.
  destruct (generateFood (snake st) draws) as [[f r]|] eqn:Hg; [|discriminate].
  inversion H; subst. exists f; split; reflexivity.
Qed.

Lemma commit_frame :
  forall u draws st' rest,
    commit u draws = Some (st', rest) ->
    snake st' = snake (next u) /\ direction st' = direction (next u) /\
    gameOver st' = gameOver (next u) /\ isPaused st' = isPaused (next u) /\
    score st' = score (next u) /\ speed st' = speed (next u).
Proof.
  intros [st b] draws st' rest H; unfold commit in H; simpl in *.
  destruct b.
  - apply initFoodEffect_inv in H. destruct H as [f [_ ->]]. simpl. tauto.
  - unfold ret in H. inversion H; subst. tauto.
Qed.

Lemma advance_inv :
  forall st draws st' rest,
    advance st draws = Some (st', rest) ->
    exists u mid, moveSnake st draws = Some (u, mid) /\ commit u mid = Some (st', rest).
Proof.
  intros st draws st' rest H; unfold advance, bind in H.
  destruct (moveSnake st draws) as [[u mid]|] eqn:Hm; [|discriminate].
  exists u, mid; split; [reflexivity | exact H].
Qed.

(** ** Fatal moves *)

(** A hit leaves every cell but [gameOver] alone and draws nothing. *)
Lemma advance_fatal :
  forall st seg0 tl draws,
    snake st = seg0 :: tl ->
    hitsWall (moveHead (direction st) seg0) = true \/
    hitsSelf (snake st) (moveHead (direction st) seg0) = true ->
    moveSnake st draws = Some (mkUpdate (setGameOver st true) false, draws) /\
    advance st draws = Some (setGameOver st true, draws).
Proof.
  intros st seg0 tl draws Hs Hhit.
  assert (Hm : moveSnake st draws = Some (mkUpdate (setGameOver st true) false, draws)).
  { unfold moveSnake. rewrite Hs. rewrite <- Hs.
    destruct (hitsWall (moveHead (direction st) seg0)) eqn:Hw; [reflexivity|].
    destruct Hhit as [Hhit | Hhit]; [discriminate|].
    rewrite Hhit. reflexivity. }
  split; [exact Hm|].
  unfold advance, bind. rewrite Hm. reflexivity.
Qed.

(** C3.  When the cell in front of the head is a cell of the current
    body, the head cell included, the tick sets [gameOver] and leaves
    the body, the food, the score and the interval as they were; no
    draw is used and nothing is re-rendered from a new body. *)
Theorem advance_self_collision :
  forall st seg0 tl draws,
    snake st = seg0 :: tl ->
    In (moveHead (direction st) seg0) (snake st) ->
    moveSnake st draws
    = Some ({| next := {| snake := snake st; food := food st;
                          direction := direction st; gameOver := true;
                          isPaused := isPaused st; score := score st;
                          speed := speed st |};
               snakeReplaced := false |}, draws)
    /\ advance st draws
       = Some ({| snake := snake st; food := food st;
                  direction := direction st; gameOver := true;
                  isPaused := isPaused st; score := score st;
                  speed := speed st |}, draws).
Proof.
  intros st seg0 tl draws Hs Hin.
  apply (advance_fatal st seg0 tl draws Hs).
  right. rewrite Hs, hitsSelf_cons. apply onSnake_In.
  rewrite Hs in Hin. destruct Hin as [Heq | Hin]; [|exact Hin].
  exfalso. apply (moveHead_moves (direction st) seg0). symmetry; exact Heq.
Qed.

(** C4.  When the cell in front of the head has a coordinate outside
    [0, 20), the tick sets [gameOver] and changes nothing else: the
    body stays where it is, and food, score and interval keep their
    values. *)
Theorem advance_wall_collision :
  forall st seg0 tl draws,
    snake st = seg0 :: tl ->
    (x (moveHead (direction st) seg0) < 0 \/
     20 <= x (moveHead (direction st) seg0) \/
     y (moveHead (direction st) seg0) < 0 \/
     20 <= y (moveHead (direction st) seg0)) ->
    moveSnake st draws
    = Some ({| next := {| snake := snake st; food := food st;
                          direction := direction st; gameOver := true;
                          isPaused := isPaused st; score := score st;
                          speed := speed st |};
               snakeReplaced := false |}, draws)
    /\ advance st draws
       = Some ({| snake := snake st; food := food st;
                  direction := direction st; gameOver := true;
                  isPaused := isPaused st; score := score st;
                  speed := speed st |}, draws).
Proof.
  intros st seg0 tl draws Hs Hout.
  apply (advance_fatal st seg0 tl draws Hs).
  left. apply hitsWall_true_iff. exact Hout.
Qed.

(** Leaving the grid from a boundary cell, one case per direction. *)
Lemma advance_off_boundary :
  forall st seg0 tl draws,
    snake st = seg0 :: tl ->
    (direction st = UP /\ y seg0 = 0) \/
    (direction st = DOWN /\ y seg0 = gridSize - 1) \/
    (direction st = LEFT /\ x seg0 = 0) \/
    (direction st = RIGHT /\ x seg0 = gridSize - 1) ->
    advance st draws = Some (setGameOver st true, draws).
Proof.
  intros st seg0 tl draws Hs Hb.
  apply (advance_fatal st seg0 tl draws Hs).
  left. apply hitsWall_true_iff. unfold gridSize in *.
  destruct Hb as [[-> H] | [[-> H] | [[-> H] | [-> H]]]]; simpl; lia.
Qed.

(** ** Moves that are not fatal *)

Lemma moveSnake_eats :
  forall st seg0 tl draws newFood rest,
    snake st = seg0 :: tl ->
    hitsWall (moveHead (direction st) seg0) = false ->
    hitsSelf (snake st) (moveHead (direction st) seg0) = false ->
    moveHead (direction st) seg0 = food st ->
    generateFood (snake st) draws = Some (newFood, rest) ->
    moveSnake st draws
    = Some ({| next := {| snake := moveHead (direction st) seg0 :: snake st;
                          food := newFood;
                          direction := direction st; gameOver := gameOver st;
                          isPaused := isPaused st; score := score st + 10;
                          speed := if speed st >? 50 then speed st - 2 else speed st |};
               snakeReplaced := true |}, rest).
Proof.
  intros st seg0 tl draws newFood rest Hs Hw Hb Hf Hg.
  unfold moveSnake. rewrite Hs. rewrite <- Hs. rewrite Hw, Hb.
  apply samePos_true_iff in Hf. unfold samePos in Hf. rewrite Hf.
  unfold bind, ret. rewrite Hg.
  destruct (speed st >? 50); reflexivity.
Qed.

Lemma moveSnake_slides :
  forall st seg0 tl draws,
    snake st = seg0 :: tl ->
    hitsWall (moveHead (direction st) seg0) = false ->
    hitsSelf (snake st) (moveHead (direction st) seg0) = false ->
    moveHead (direction st) seg0 <> food st ->
    moveSnake st draws
    = Some ({| next := {| snake := removelast (moveHead (direction st) seg0 :: snake st);
                          food := food st;
                          direction := direction st; gameOver := gameOver st;
                          isPaused := isPaused st; score := score st;
                          speed := speed st |};
               snakeReplaced := true |}, draws).
Proof.
  intros st seg0 tl draws Hs Hw Hb Hf.
  unfold moveSnake. rewrite Hs. rewrite <- Hs. rewrite Hw, Hb.
  apply samePos_false_iff in Hf. unfold samePos in Hf. rewrite Hf.
  reflexivity.
Qed.

Lemma length_removelast_cons :
  forall (A : Type) (a : A) (l : list A), List.length (removelast (a :: l)) = List.length l.
Proof.
  intros A a l; revert a; induction l as [|b l IH]; intros a.
  - reflexivity.
  - simpl List.length at 2. rewrite <- (IH b). reflexivity.
Qed.

(** C1.  A tick that hits neither wall nor body, from a state whose
    interval respects the floor of 50: on the food cell the body grows
    by one, the score rises by 10, and the interval drops by 2 unless
    it is 50, where it stays; off the food cell the length, the score
    and the interval are the same after the tick.  The placements the
    tick triggers are assumed to return. *)
Theorem advance_growth_score_speed :
  forall st seg0 tl draws,
    snake st = seg0 :: tl ->
    50 <= speed st ->
    hitsWall (moveHead (direction st) seg0) = false ->
    hitsSelf (snake st) (moveHead (direction st) seg0) = false ->
    (moveHead (direction st) seg0 = food st ->
     forall f1 mid f2 rest,
       generateFood (snake st) draws = Some (f1, mid) ->
       generateFood (moveHead (direction st) seg0 :: snake st) mid = Some (f2, rest) ->
       exists st',
         advance st draws = Some (st', rest) /\
         List.length (snake st') = S (List.length (snake st)) /\
         score st' = score st + 10 /\
         (speed st = 50 -> speed st' = speed st) /\
         (speed st <> 50 -> speed st' = speed st - 2))
    /\
    (moveHead (direction st) seg0 <> food st ->
     forall f2 rest,
       generateFood (removelast (moveHead (direction st) seg0 :: snake st)) draws
       = Some (f2, rest) ->
       exists st',
         advance st draws = Some (st', rest) /\
         List.length (snake st') = List.length (snake st) /\
         score st' = score st /\
         speed st' = speed st).
Proof.
  intros st seg0 tl draws Hs Hfloor Hw Hb; split.
  - intros Hf f1 mid f2 rest Hg1 Hg2.
    pose proof (moveSnake_eats st seg0 tl draws f1 mid Hs Hw Hb Hf Hg1) as Hm.
    eexists; split.
    + unfold advance, bind. rewrite Hm.
      unfold commit, initFoodEffect, bind, ret.
      cbn [snakeReplaced next snake setFood]. rewrite Hg2. reflexivity.
    + simpl. repeat split.
      * intros H50. rewrite H50. reflexivity.
      * intros Hne. destruct (speed st >? 50) eqn:Hgt; [reflexivity|].
        rewrite Z.gtb_ltb, Z.ltb_ge in Hgt. lia.
  - intros Hf f2 rest Hg2.
    pose proof (moveSnake_slides st seg0 tl draws Hs Hw Hb Hf) as Hm.
    eexists; split.
    + unfold advance, bind. rewrite Hm.
      unfold commit, initFoodEffect, bind, ret.
      cbn [snakeReplaced next snake setFood]. rewrite Hg2. reflexivity.
    + cbn [snake score speed setFood].
      rewrite length_removelast_cons. repeat split.
Qed.

(** C5, as stated.  From the snake [(1,1)] heading right with the food
    at (2,1), no supply of draws makes the tick end with the one-cell
    body [(2,1)]: the tick eats, so the body keeps its old cell. *)
Lemma advance_scenario_body_not_single :
  ~ exists draws st' rest,
      advance scenarioEat draws = Some (st', rest) /\
      snake st' = [mkPosition 2 1] /\ score st' = 10 /\
      speed st' = 148 /\ gameOver st' = false.
Proof.
  intros [draws [st' [rest [H [Hsnake _]]]]].
  apply advance_inv in H. destruct H as [u [mid [Hm Hc]]].
  apply commit_frame in Hc. destruct Hc as [Hs _].
  unfold moveSnake, bind, ret in Hm; simpl in Hm.
  destruct (generateFood [mkPosition 1 1] draws) as [[f r]|]; [|discriminate].
  inversion Hm; subst u. simpl in Hs. congruence.
Qed.

(** C5, amended.  From any running state with snake [(1,1)], direction
    RIGHT, food (2,1), score 0 and interval 150, one tick yields the
    body [(2,1); (1,1)], score 10, interval 148 and [gameOver] false,
    whenever the placements it triggers return. *)
Theorem advance_scenario_eats :
  forall st draws f1 mid f2 rest,
    snake st = [mkPosition 1 1] ->
    direction st = RIGHT ->
    food st = mkPosition 2 1 ->
    score st = 0 ->
    speed st = 150 ->
    gameOver st = false ->
    generateFood [mkPosition 1 1] draws = Some (f1, mid) ->
    generateFood [mkPosition 2 1; mkPosition 1 1] mid = Some (f2, rest) ->
    moveSnake st draws
    = Some ({| next := {| snake := [mkPosition 2 1; mkPosition 1 1];
                          food := f1;
                          direction := RIGHT;
                          gameOver := false;
                          isPaused := isPaused st;
                          score := 10;
                          speed := 148 |};
               snakeReplaced := true |}, mid)
    /\ advance st draws
       = Some ({| snake := [mkPosition 2 1; mkPosition 1 1];
                  food := f2;
                  direction := RIGHT;
                  gameOver := false;
                  isPaused := isPaused st;
                  score := 10;
                  speed := 148 |}, rest).
Proof.
  intros [sn fo di go pa sc sp] draws f1 mid f2 rest; simpl.
  intros -> -> -> -> -> -> Hg1 Hg2.
  assert (Hm : moveSnake (mkGame [mkPosition 1 1] (mkPosition 2 1) RIGHT false pa 0 150)
                 draws
               = Some (mkUpdate
                         (mkGame [mkPosition 2 1; mkPosition 1 1] f1 RIGHT false pa 10 148)
                         true, mid)).
  { unfold moveSnake; simpl. unfold bind, ret. rewrite Hg1. reflexivity. }
  split; [exact Hm|].
  unfold advance, bind. rewrite Hm.
  unfold commit, initFoodEffect, bind, ret; simpl. rewrite Hg2. reflexivity.
Qed.

Lemma advance_scenario_eats_witness :
  advance scenarioEat drawsCentreTwice
  = Some ({| snake := [mkPosition 2 1; mkPosition 1 1];
             food := mkPosition 10 10;
             direction := RIGHT;
             gameOver := false;
             isPaused := false;
             score := 10;
             speed := 148 |}, [2; 1]).
Proof.
  exact (proj2 (advance_scenario_eats scenarioEat drawsCentreTwice
                  (mkPosition 10 10) [10; 10; 2; 1]
                  (mkPosition 10 10) [2; 1]
                  eq_refl eq_refl eq_refl eq_refl eq_refl eq_refl eq_refl eq_refl)).
Defined.

Lemma advance_self_collision_witness :
  advance scenarioBite drawsCentreTwice
  = Some ({| snake := [mkPosition 5 5; mkPosition 6 5; mkPosition 6 6];
             food := mkPosition 7 7;
             direction := RIGHT;
             gameOver := true;
             isPaused := false;
             score := 20;
             speed := 146 |}, drawsCentreTwice).
Proof.
  exact (proj2 (advance_self_collision scenarioBite (mkPosition 5 5)
                  [mkPosition 6 5; mkPosition 6 6] drawsCentreTwice
                  eq_refl (or_intror (or_introl eq_refl)))).
Defined.

Lemma advance_wall_collision_witness :
  advance scenarioWall drawsCentreTwice
  = Some ({| snake := [mkPosition 0 5; mkPosition 1 5];
             food := mkPosition 7 7;
             direction := LEFT;
             gameOver := true;
             isPaused := false;
             score := 10;
             speed := 148 |}, drawsCentreTwice).
Proof.
  exact (proj2 (advance_wall_collision scenarioWall (mkPosition 0 5)
                  [mkPosition 1 5] drawsCentreTwice
                  eq_refl (or_introl eq_refl))).
Defined.

Lemma advance_growth_score_speed_witness :
  exists st',
    advance scenarioEat drawsCentreTwice = Some (st', [2; 1]) /\
    List.length (snake st') = 2%nat /\
    score st' = 10 /\
    speed st' = 148.
Proof.
  destruct (advance_growth_score_speed scenarioEat (mkPosition 1 1) []
              drawsCentreTwice eq_refl ltac:(simpl; lia) eq_refl eq_refl)
    as [Heat _].
  destruct (Heat eq_refl (mkPosition 10 10) [10; 10; 2; 1]
              (mkPosition 10 10) [2; 1] eq_refl eq_refl)
    as [st' [Ha [Hl [Hs [_ Hsp]]]]].
  exists st'. split; [exact Ha|]. split; [exact Hl|]. split; [exact Hs|].
  apply Hsp. simpl. lia.
Defined.

(** ** Where the food lands *)

(** C2.  Inside a tick the placement is tested against the body of the
    last render, which lacks the cell the head has just entered: with
    the snake [(1,1)] moving right onto the food at (2,1) and draws
    2 and 1, [generateFood] returns (2,1), and the update
    of the tick has the food on the new head. *)
Theorem moveSnake_places_food_on_new_head :
  generateFood (snake scenarioEat) drawsAheadThenCentre
  = Some (mkPosition 2 1, [10; 10])
  /\ moveSnake scenarioEat drawsAheadThenCentre
     = Some ({| next := {| snake := [mkPosition 2 1; mkPosition 1 1];
                           food := mkPosition 2 1;
                           direction := RIGHT;
                           gameOver := false;
                           isPaused := false;
                           score := 10;
                           speed := 148 |};
                snakeReplaced := true |}, [10; 10])
  /\ In (mkPosition 2 1) [mkPosition 2 1; mkPosition 1 1].
Proof.
  split; [reflexivity|]. split; [reflexivity|]. left; reflexivity.
Qed.

(** The same test against the old body in the restart handler: its own
    draw can land on the cell the new snake starts from. *)
Lemma resetGame_draw_uses_old_body :
  resetGame scenarioOver drawsCentreTwice
  = Some ({| next := {| snake := [mkPosition 10 10];
                        food := mkPosition 10 10;
                        direction := RIGHT;
                        gameOver := false;
                        isPaused := false;
                        score := 0;
                        speed := 150 |};
             snakeReplaced := true |}, [10; 10; 2; 1]).
Proof. reflexivity. Qed.

(** After the commit the food is off the rendered body, whatever the
    handler drew: the fresh array re-runs the placement effect. *)
Lemma commit_food_off_snake :
  forall u draws st' rest,
    snakeReplaced u = true ->
    commit u draws = Some (st', rest) ->
    ~ In (food st') (snake st').
Proof.
  intros [st b] draws st' rest Hb H; simpl in Hb; subst b.
  unfold commit in H; simpl in H.
  apply initFoodEffect_inv in H. destruct H as [f [Hg ->]]; simpl.
  eapply generateFood_off_segments; exact Hg.
Qed.

(** The whole click up to the next stable render.  The handler writes
    the six fixed cells itself, with a food [f1] tested against the old
    body; the placement effect then draws the food [f2] against the new
    body, so [f2] is not the cell (10,10). *)
Lemma restart_resets :
  forall st draws f1 mid f2 rest,
    generateFood (snake st) draws = Some (f1, mid) ->
    generateFood [mkPosition 10 10] mid = Some (f2, rest) ->
    resetGame st draws
    = Some ({| next := {| snake := [mkPosition 10 10];
                          food := f1;
                          direction := RIGHT;
                          gameOver := false;
                          isPaused := false;
                          score := 0;
                          speed := 150 |};
               snakeReplaced := true |}, mid)
    /\ restart st draws
       = Some ({| snake := [mkPosition 10 10];
                  food := f2;
                  direction := RIGHT;
                  gameOver := false;
                  isPaused := false;
                  score := 0;
                  speed := 150 |}, rest)
    /\ ~ In f2 [mkPosition 10 10].
Proof.
  intros st draws f1 mid f2 rest Hg1 Hg2.
  assert (Hr : resetGame st draws
               = Some (mkUpdate
                         (mkGame [mkPosition 10 10] f1 RIGHT false false 0 150)
                         true, mid)).
  { unfold resetGame, bind, ret. rewrite Hg1. reflexivity. }
  split; [exact Hr|]. split.
  - unfold restart, bind. rewrite Hr.
    unfold commit, initFoodEffect, bind, ret; simpl. rewrite Hg2. reflexivity.
  - eapply generateFood_off_segments; exact Hg2.
Qed.

Lemma restart_resets_witness :
  restart scenarioOver drawsCentreTwice
  = Some ({| snake := [mkPosition 10 10];
             food := mkPosition 2 1;
             direction := RIGHT;
             gameOver := false;
             isPaused := false;
             score := 0;
             speed := 150 |}, [])
  /\ ~ In (mkPosition 2 1) [mkPosition 10 10].
Proof.
  exact (proj2 (restart_resets scenarioOver drawsCentreTwice
                  (mkPosition 10 10) [10; 10; 2; 1]
                  (mkPosition 2 1) [] eq_refl eq_refl)).
Defined.

(** ** The tick interval over a run *)











(** ** Direction requests *)

(** The arrow keys go through the same test as the buttons. *)
Lemma handleKeyDown_request :
  forall st d key,
    In key (keysFor d) ->
    handleKeyDown st key = handleDirectionChange st d.
Proof.
  intros st d key Hin.
  unfold handleKeyDown, handleDirectionChange.
  destruct (gameOver st); [reflexivity|].
  destruct d; simpl in Hin;
    destruct Hin as [<- | [<- | [<- | []]]];
    destruct (direction st); reflexivity.
Qed.

Lemma handleDirectionChange_over :
  forall st d, gameOver st = true -> handleDirectionChange st d = st.
Proof.
  intros st d Hover; unfold handleDirectionChange; rewrite Hover; reflexivity.
Qed.

Lemma handleKeyDown_over :
  forall st key, gameOver st = true -> handleKeyDown st key = st.
Proof.
  intros st key Hover; unfold handleKeyDown; rewrite Hover; reflexivity.
Qed.

Lemma handleDirectionChange_applied :
  forall st requested,
    gameOver st = false ->
    requested <> opposite (direction st) ->
    handleDirectionChange st requested = setDirection st requested.
Proof.
  intros st requested Hover Hne; unfold handleDirectionChange; rewrite Hover.
  destruct requested, (direction st); simpl in *; try reflexivity; congruence.
Qed.

Lemma handleDirectionChange_refused :
  forall st requested,
    gameOver st = false ->
    requested = opposite (direction st) ->
    handleDirectionChange st requested = st.
Proof.
  intros st requested Hover ->; unfold handleDirectionChange; rewrite Hover.
  destruct (direction st); reflexivity.
Qed.

(** C7.  While the game is not over, a direction request replaces
    [direction] unless it is the opposite of the current one; an
    opposite request leaves the whole state as it is. *)
Theorem handleDirectionChange_rule :
  forall st requested,
    gameOver st = false ->
    (requested <> opposite (direction st) ->
     handleDirectionChange st requested
     = {| snake := snake st; food := food st; direction := requested;
          gameOver := gameOver st; isPaused := isPaused st;
          score := score st; speed := speed st |})
    /\
    (requested = opposite (direction st) ->
     handleDirectionChange st requested = st).
Proof.
  intros st requested Hover; split; intros H.
  - exact (handleDirectionChange_applied st requested Hover H).
  - exact (handleDirectionChange_refused st requested Hover H).
Qed.

Lemma handleDirectionChange_rule_witness :
  handleDirectionChange scenarioTurn UP
  = {| snake := [mkPosition 5 5; mkPosition 4 5]; food := mkPosition 15 15;
       direction := UP; gameOver := false; isPaused := true;
       score := 10; speed := 148 |}
  /\ handleDirectionChange scenarioTurn LEFT = scenarioTurn.
Proof.
  destruct (handleDirectionChange_rule scenarioTurn UP eq_refl) as [Hup _].
  destruct (handleDirectionChange_rule scenarioTurn LEFT eq_refl) as [_ Hleft].
  split.
  - apply Hup. discriminate.
  - apply Hleft. reflexivity.
Defined.

(** C9.  The test reads only the stored direction.  From a state that
    is not over and heads RIGHT, a request for UP followed by one for
    LEFT, with no tick between them, stores LEFT, the opposite of the
    heading of the last move; this holds for the buttons and for the
    keys.  When the body has a second segment in the cell left of the
    head, the next tick then ends the game. *)
Theorem double_request_reverses :
  forall st,
    gameOver st = false ->
    direction st = RIGHT ->
    handleDirectionChange (handleDirectionChange st UP) LEFT
    = {| snake := snake st; food := food st; direction := LEFT;
         gameOver := false; isPaused := isPaused st;
         score := score st; speed := speed st |}
    /\ handleKeyDown (handleKeyDown st "ArrowUp") "ArrowLeft"
       = handleDirectionChange (handleDirectionChange st UP) LEFT
    /\ LEFT = opposite (direction st)
    /\ (forall seg0 seg1 tl draws,
           snake st = seg0 :: seg1 :: tl ->
           seg1 = moveHead LEFT seg0 ->
           advance (handleDirectionChange (handleDirectionChange st UP) LEFT) draws
           = Some ({| snake := snake st; food := food st; direction := LEFT;
                      gameOver := true; isPaused := isPaused st;
                      score := score st; speed := speed st |}, draws)).
Proof.
  intros [sn fo di go pa sc sp]; simpl; intros -> ->.
  split; [reflexivity|]. split; [reflexivity|]. split; [reflexivity|].
  intros seg0 seg1 tl draws -> ->.
  change (handleDirectionChange
            (handleDirectionChange
               (mkGame (seg0 :: moveHead LEFT seg0 :: tl) fo RIGHT false pa sc sp) UP)
            LEFT)
    with (mkGame (seg0 :: moveHead LEFT seg0 :: tl) fo LEFT false pa sc sp).
  apply (advance_fatal
           (mkGame (seg0 :: moveHead LEFT seg0 :: tl) fo LEFT false pa sc sp)
           seg0 (moveHead LEFT seg0 :: tl) draws eq_refl).
  right. cbn [snake direction]. rewrite hitsSelf_cons. apply onSnake_In.
  left; reflexivity.
Qed.

Lemma double_request_reverses_witness :
  direction (handleDirectionChange (handleDirectionChange scenarioTurn UP) LEFT) = LEFT
  /\ advance (handleDirectionChange (handleDirectionChange scenarioTurn UP) LEFT)
             drawsCentreTwice
     = Some ({| snake := [mkPosition 5 5; mkPosition 4 5]; food := mkPosition 15 15;
                direction := LEFT; gameOver := true; isPaused := true;
                score := 10; speed := 148 |}, drawsCentreTwice).
Proof.
  destruct (double_request_reverses scenarioTurn eq_refl eq_refl)
    as [Hdir [_ [_ Hbite]]].
  split.
  - rewrite Hdir. reflexivity.
  - exact (Hbite (mkPosition 5 5) (mkPosition 4 5) [] drawsCentreTwice eq_refl eq_refl).
Defined.

(** C10.  Pausing does not block direction requests: while the game
    is paused and not over, a request that is not the opposite of the
    current direction replaces it, from a button or from a key.  A
    finished game ignores every request and every key.  Whenever the
    game is not over, paused or not, such a request is applied. *)
Theorem direction_requests_while_paused :
  forall st requested,
    (gameOver st = false ->
     isPaused st = true ->
     requested <> opposite (direction st) ->
     handleDirectionChange st requested
     = {| snake := snake st; food := food st; direction := requested;
          gameOver := false; isPaused := true;
          score := score st; speed := speed st |}
     /\ forall key, In key (keysFor requested) ->
          handleKeyDown st key = handleDirectionChange st requested)
    /\
    (gameOver st = true ->
     handleDirectionChange st requested = st
     /\ forall key, handleKeyDown st key = st)
    /\
    (gameOver st = false ->
     requested <> opposite (direction st) ->
     direction (handleDirectionChange st requested) = requested
     /\ isPaused (handleDirectionChange st requested) = isPaused st).
Proof.
  intros st requested; split; [|split].
  - intros Hover Hpaused Hne. split.
    + rewrite (handleDirectionChange_applied st requested Hover Hne).
      unfold setDirection. rewrite Hover, Hpaused. reflexivity.
    + intros key Hin. apply handleKeyDown_request. exact Hin.
  - intros Hover. split.
    + apply handleDirectionChange_over. exact Hover.
    + intros key. apply handleKeyDown_over. exact Hover.
  - intros Hover Hne.
    rewrite (handleDirectionChange_applied st requested Hover Hne).
    split; reflexivity.
Qed.

Lemma direction_requests_while_paused_witness :
  handleDirectionChange scenarioTurn DOWN
  = {| snake := [mkPosition 5 5; mkPosition 4 5]; food := mkPosition 15 15;
       direction := DOWN; gameOver := false; isPaused := true;
       score := 10; speed := 148 |}
  /\ handleKeyDown scenarioTurn "s" = handleDirectionChange scenarioTurn DOWN
  /\ handleDirectionChange scenarioOver LEFT = scenarioOver.
Proof.
  destruct (direction_requests_while_paused scenarioTurn DOWN) as [Hpaused _].
  destruct (direction_requests_while_paused scenarioOver LEFT) as [_ [Hover _]].
  destruct (Hpaused eq_refl eq_refl ltac:(discriminate)) as [Hbutton Hkey].
  split; [exact Hbutton|]. split.
  - apply Hkey. right; left; reflexivity.
  - exact (proj1 (Hover eq_refl)).
Defined.

(** * Further properties of the component *)

(** ** Food placement *)

Lemma generateFood_retry :
  forall segments rx ry rest,
    In (mkPosition rx ry) segments ->
    generateFood segments (rx :: ry :: rest) = generateFood segments rest.
Proof.
  intros segments rx ry rest Hon.
  apply onSnake_In in Hon. unfold onSnake, samePos in Hon; simpl in Hon.
  cbn [generateFood]. cbn [x y]. rewrite Hon. reflexivity.
Qed.

Lemma generateFood_spec :
  forall segments draws newFood rest,
    generateFood segments draws = Some (newFood, rest) <->
    exists skipped rx ry,
      draws = skipped ++ rx :: ry :: rest /\
      Nat.even (List.length skipped) = true /\
      Forall (fun c => In c segments) (candidates skipped) /\
      newFood = mkPosition rx ry /\
      ~ In newFood segments.
Proof.
  intros segments draws newFood rest; split.
  - revert newFood rest.
    induction draws as [| r | rx ry draws IH] using draws_pair_ind;
      intros newFood rest H; try discriminate H.
    destruct (onSnake (mkPosition rx ry) segments) eqn:Hc;
      [apply onSnake_In in Hc; rename Hc into Hon
      |apply onSnake_not_In in Hc; rename Hc into Hoff].
    + rewrite (generateFood_retry segments rx ry draws Hon) in H.
      destruct (IH newFood rest H) as [skipped [sx [sy [Hd [Hev [Hall [Hf Hfree]]]]]]].
      exists (rx :: ry :: skipped), sx, sy.
      split; [rewrite Hd; reflexivity|].
      split; [exact Hev|].
      split; [constructor; [exact Hon | exact Hall]|].
      split; assumption.
    + rewrite (generateFood_first_free segments rx ry draws Hoff) in H.
      inversion H; subst.
      exists [], rx, ry. repeat split; try reflexivity; [constructor | exact Hoff].
  - intros [skipped [rx [ry [-> [Hev [Hall [-> Hfree]]]]]]].
    induction skipped as [| r | sx sy skipped IH] using draws_pair_ind.
    + apply generateFood_first_free. exact Hfree.
    + discriminate Hev.
    + cbn [candidates] in Hall. apply Forall_cons_iff in Hall.
      destruct Hall as [Hon Hall].
      change ((sx :: sy :: skipped) ++ rx :: ry :: rest)
        with (sx :: sy :: (skipped ++ rx :: ry :: rest)).
      rewrite (generateFood_retry segments sx sy _ Hon).
      apply IH; assumption.
Qed.

(** X1.  [generateFood] returns the first candidate of the supply that
    is off the body it tests: the draws it used up are an even number
    of draws whose candidates all lie on that body, followed by the two
    draws of the returned cell. *)
Theorem generateFood_first_free_candidate :
  forall segments draws newFood rest,
    generateFood segments draws = Some (newFood, rest) <->
    exists skipped rx ry,
      draws = skipped ++ rx :: ry :: rest /\
      Nat.even (List.length skipped) = true /\
      Forall (fun c => In c segments) (candidates skipped) /\
      newFood = mkPosition rx ry /\
      ~ In newFood segments.
Proof.
  intros segments draws newFood rest; split; intros H.
  - apply (proj1 (generateFood_spec segments draws newFood rest)). exact H.
  - apply (proj2 (generateFood_spec segments draws newFood rest)). exact H.
Qed.

Lemma inBoard_range : forall v, inBoard v = true -> 0 <= v < gridSize.
Proof.
  intros v H. unfold inBoard in H. apply andb_true_iff in H.
  destruct H as [H0 H1]. apply Z.leb_le in H0. apply Z.ltb_lt in H1.
  split; assumption.
Qed.

Lemma upTo_In : forall n k, In k (upTo n) <-> 0 <= k < n.
Proof.
  intros n k; unfold upTo. rewrite in_map_iff. split.
  - intros [i [<- Hi]]. apply in_seq in Hi. lia.
  - intros Hk. exists (Z.to_nat k). split; [lia|]. apply in_seq. lia.
Qed.

Lemma fullGrid_covers : forall c, inGrid c -> In c fullGrid.
Proof.
  intros [cx cy] [Hx Hy]; cbn [x y] in Hx, Hy. unfold fullGrid.
  apply in_flat_map. exists cy. split; [apply upTo_In; exact Hy|].
  apply in_map_iff. exists cx. split; [reflexivity | apply upTo_In; exact Hx].
Qed.

(** X3.  On a body that covers every cell of the board, no supply of
    draws that are rows or columns of the board makes [generateFood]
    return: every candidate is rejected and the function calls itself
    again. *)
Theorem generateFood_full_board :
  forall segments draws,
    (forall c, inGrid c -> In c segments) ->
    forallb inBoard draws = true ->
    generateFood segments draws = None.
Proof.
  intros segments draws Hfull.
  induction draws as [| r | rx ry draws IH] using draws_pair_ind; intros Hu.
  - reflexivity.
  - reflexivity.
  - simpl in Hu. apply andb_true_iff in Hu. destruct Hu as [Hx Hu].
    apply andb_true_iff in Hu. destruct Hu as [Hy Hu].
    rewrite generateFood_retry; [apply IH; exact Hu|].
    apply Hfull. split; simpl.
    + exact (inBoard_range rx Hx).
    + exact (inBoard_range ry Hy).
Qed.

Lemma generateFood_full_board_witness :
  generateFood fullGrid drawsCentreTwice = None.
Proof.
  exact (generateFood_full_board fullGrid drawsCentreTwice fullGrid_covers eq_refl).
Defined.

(** ** The ways a tick can end *)

Lemma moveSnake_ticked :
  forall st draws u rest,
    moveSnake st draws = Some (u, rest) -> ticked st (next u).
Proof.
  intros st draws u rest Hm. unfold moveSnake in Hm.
  destruct (snake st) as [|seg0 tl] eqn:Hs.
  - unfold ret in Hm. inversion Hm; subst u rest. cbn [next].
    replace st with (setFood st (food st)) at 2 by (destruct st; reflexivity).
    apply ticked_empty. exact Hs.
  - destruct (hitsWall (moveHead (direction st) seg0)) eqn:Hw.
    { unfold ret in Hm. inversion Hm; subst u rest. cbn [next].
      apply (ticked_fatal st seg0 tl Hs). left; exact Hw. }
    destruct (hitsSelf (seg0 :: tl) (moveHead (direction st) seg0)) eqn:Hb.
    { unfold ret in Hm. inversion Hm; subst u rest. cbn [next].
      apply (ticked_fatal st seg0 tl Hs). right; rewrite Hs; exact Hb. }
    destruct (samePos (moveHead (direction st) seg0) (food st)) eqn:Hf;
      unfold samePos in Hf; rewrite Hf in Hm.
    + unfold bind, ret in Hm.
      destruct (generateFood (seg0 :: tl) draws) as [[f1 r1]|]; [|discriminate].
      assert (Hu : u = mkUpdate
                         (mkGame (moveHead (direction st) seg0 :: seg0 :: tl) f1
                                 (direction st) (gameOver st) (isPaused st)
                                 (score st + 10)
                                 (if speed st >? 50 then speed st - 2 else speed st))
                         true).
      { destruct (speed st >? 50); inversion Hm; reflexivity. }
      subst u. cbn [next]. rewrite <- Hs.
      apply (ticked_eats st seg0 tl f1 Hs Hw); [rewrite Hs; exact Hb|].
      apply samePos_true_iff. exact Hf.
    + assert (Hu : u = mkUpdate
                         (setSnake st
                            (removelast (moveHead (direction st) seg0 :: seg0 :: tl)))
                         true).
      { unfold ret in Hm. congruence. }
      subst u. clear Hm. unfold setSnake; cbn [next]. rewrite <- Hs.
      apply (ticked_slides st seg0 tl (food st) Hs Hw); [rewrite Hs; exact Hb|].
      apply samePos_false_iff. exact Hf.
Qed.

Lemma moveSnake_kept_snake :
  forall st draws u rest,
    moveSnake st draws = Some (u, rest) ->
    snakeReplaced u = false ->
    snake (next u) = snake st /\ food (next u) = food st.
Proof.
  intros st draws u rest Hm Hrep. unfold moveSnake in Hm.
  destruct (snake st) as [|seg0 tl] eqn:Hs.
  - unfold ret in Hm. inversion Hm; subst u. discriminate Hrep.
  - destruct (hitsWall _).
    { unfold ret in Hm. inversion Hm; subst u. simpl. rewrite Hs. split; reflexivity. }
    destruct (hitsSelf _ _).
    { unfold ret in Hm. inversion Hm; subst u. simpl. rewrite Hs. split; reflexivity. }
    destruct (_ && _).
    + unfold bind, ret in Hm.
      destruct (generateFood (seg0 :: tl) draws) as [[f1 r1]|]; [|discriminate].
      destruct (speed st >? 50); inversion Hm; subst u; discriminate Hrep.
    + unfold ret in Hm.
      assert (Hu : snakeReplaced u = true) by (inversion Hm; reflexivity).
      congruence.
Qed.

Lemma advance_ticked :
  forall st draws st' rest,
    advance st draws = Some (st', rest) -> ticked st st'.
Proof.
  intros st draws st' rest H.
  apply advance_inv in H. destruct H as [u [mid [Hm Hc]]].
  unfold moveSnake in Hm.
  destruct (snake st) as [|seg0 tl] eqn:Hs.
  - unfold ret in Hm. inversion Hm; subst u mid. unfold commit in Hc; simpl in Hc.
    apply initFoodEffect_inv in Hc. destruct Hc as [f [_ ->]].
    apply ticked_empty. exact Hs.
  - destruct (hitsWall (moveHead (direction st) seg0)) eqn:Hw.
    { unfold ret in Hm. inversion Hm; subst u mid.
      unfold commit, ret in Hc; simpl in Hc. inversion Hc; subst.
      apply (ticked_fatal st seg0 tl Hs). left; exact Hw. }
    destruct (hitsSelf (seg0 :: tl) (moveHead (direction st) seg0)) eqn:Hb.
    { unfold ret in Hm. inversion Hm; subst u mid.
      unfold commit, ret in Hc; simpl in Hc. inversion Hc; subst.
      apply (ticked_fatal st seg0 tl Hs). right; rewrite Hs; exact Hb. }
    destruct (samePos (moveHead (direction st) seg0) (food st)) eqn:Hf;
      unfold samePos in Hf; rewrite Hf in Hm.
    + unfold bind, ret in Hm.
      destruct (generateFood (seg0 :: tl) draws) as [[f1 r1]|]; [|discriminate].
      assert (Hu : u = mkUpdate
                         (mkGame (moveHead (direction st) seg0 :: seg0 :: tl) f1
                                 (direction st) (gameOver st) (isPaused st)
                                 (score st + 10)
                                 (if speed st >? 50 then speed st - 2 else speed st))
                         true /\ mid = r1).
      { destruct (speed st >? 50); inversion Hm; split; reflexivity. }
      destruct Hu as [-> ->]. unfold commit in Hc; cbn [snakeReplaced next] in Hc.
      apply initFoodEffect_inv in Hc. destruct Hc as [f2 [_ ->]].
      unfold setFood; cbn [snake food direction gameOver isPaused score speed].
      rewrite <- Hs.
      apply (ticked_eats st seg0 tl f2 Hs Hw); [rewrite Hs; exact Hb|].
      apply samePos_true_iff. exact Hf.
    + assert (Hu : u = mkUpdate
                         (setSnake st
                            (removelast (moveHead (direction st) seg0 :: seg0 :: tl)))
                         true /\ mid = draws).
      { unfold ret in Hm. split; congruence. }
      destruct Hu as [-> ->]. clear Hm.
      unfold commit in Hc; cbn [snakeReplaced next] in Hc.
      apply initFoodEffect_inv in Hc. destruct Hc as [f2 [_ ->]].
      unfold setFood, setSnake; cbn [snake food direction gameOver isPaused score speed].
      rewrite <- Hs.
      apply (ticked_slides st seg0 tl f2 Hs Hw); [rewrite Hs; exact Hb|].
      apply samePos_false_iff. exact Hf.
Qed.

(** ** Bodies without their last segment *)

Lemma removelast_In :
  forall (A : Type) (l : list A) (a : A), In a (removelast l) -> In a l.
Proof.
  intros A l; induction l as [|b l IH]; intros a H.
  - exact H.
  - destruct l as [|c l].
    + destruct H.
    + change (removelast (b :: c :: l)) with (b :: removelast (c :: l)) in H.
      destruct H as [-> | H]; [left; reflexivity | right; apply IH; exact H].
Qed.

Lemma removelast_NoDup :
  forall (A : Type) (l : list A), NoDup l -> NoDup (removelast l).
Proof.
  intros A l H; induction H as [|b l Hnot Hnd IH].
  - constructor.
  - destruct l as [|c l].
    + constructor.
    + change (removelast (b :: c :: l)) with (b :: removelast (c :: l)).
      constructor; [|exact IH].
      intros Hin. apply Hnot. apply removelast_In. exact Hin.
Qed.

Lemma removelast_Forall :
  forall (A : Type) (P : A -> Prop) (l : list A),
    Forall P l -> Forall P (removelast l).
Proof.
  intros A P l H. apply Forall_forall. intros a Ha.
  apply removelast_In in Ha. revert a Ha. apply Forall_forall. exact H.
Qed.

Lemma removelast_chain : forall l, chain l -> chain (removelast l).
Proof.
  induction l as [|a l IH]; intros H.
  - exact I.
  - destruct l as [|b l].
    + exact I.
    + destruct H as [Hab Hc].
      change (removelast (a :: b :: l)) with (a :: removelast (b :: l)).
      destruct l as [|c l].
      * exact I.
      * change (removelast (b :: c :: l)) with (b :: removelast (c :: l)).
        split; [exact Hab|].
        change (b :: removelast (c :: l)) with (removelast (b :: c :: l)).
        apply IH. exact Hc.
Qed.

Lemma moveHead_adjacent : forall d seg0, adjacent (moveHead d seg0) seg0.
Proof.
  intros d [sx sy]; unfold adjacent; destruct d; simpl; lia.
Qed.

Lemma hitsWall_false_inGrid : forall head, hitsWall head = false -> inGrid head.
Proof.
  intros head H. unfold inGrid.
  destruct (hitsWall_true_iff head) as [_ Hback].
  assert (Hn : ~ (x head < 0 \/ gridSize <= x head \/ y head < 0 \/ gridSize <= y head)).
  { intros Hout. rewrite (Hback Hout) in H. discriminate. }
  lia.
Qed.

(** A move that is not a hit puts the head on a fresh cell of the board
    next to the old head. *)
Lemma grown_snakeOk :
  forall d seg0 tl,
    snakeOk (seg0 :: tl) ->
    hitsWall (moveHead d seg0) = false ->
    hitsSelf (seg0 :: tl) (moveHead d seg0) = false ->
    snakeOk (moveHead d seg0 :: seg0 :: tl).
Proof.
  intros d seg0 tl [_ [Hnd [Hg Hc]]] Hw Hb.
  split; [discriminate|]. split; [|split].
  - constructor; [|exact Hnd].
    intros [Heq | Hin].
    + apply (moveHead_moves d seg0). symmetry; exact Heq.
    + rewrite hitsSelf_cons in Hb. apply onSnake_not_In in Hb. exact (Hb Hin).
  - constructor; [apply hitsWall_false_inGrid; exact Hw | exact Hg].
  - split; [apply moveHead_adjacent | exact Hc].
Qed.

Lemma slid_snakeOk :
  forall d seg0 tl,
    snakeOk (seg0 :: tl) ->
    hitsWall (moveHead d seg0) = false ->
    hitsSelf (seg0 :: tl) (moveHead d seg0) = false ->
    snakeOk (removelast (moveHead d seg0 :: seg0 :: tl)).
Proof.
  intros d seg0 tl Hok Hw Hb.
  destruct (grown_snakeOk d seg0 tl Hok Hw Hb) as [_ [Hnd [Hg Hc]]].
  split; [|split; [|split]].
  - change (removelast (moveHead d seg0 :: seg0 :: tl))
      with (moveHead d seg0 :: removelast (seg0 :: tl)). discriminate.
  - apply removelast_NoDup. exact Hnd.
  - apply removelast_Forall. exact Hg.
  - apply removelast_chain. exact Hc.
Qed.

(** ** Input handlers and the board *)

Lemma handleKeyDown_gentle :
  forall st key, gentleInput st (handleKeyDown st key).
Proof.
  intros st key; unfold gentleInput, boardKept, handleKeyDown.
  destruct (gameOver st) eqn:Hover.
  - cbv iota. rewrite ?Hover.
    repeat split; try reflexivity. destruct (direction st); discriminate.
  - destruct (direction st) eqn:Hd; cbn [negb direction_eqb];
      repeat match goal with
             | |- context [keyIs ?k ?l] => destruct (keyIs k l)
             end;
      cbn [snake food direction gameOver isPaused score speed
           setDirection setIsPaused opposite];
      rewrite ?Hd, ?Hover; repeat split; try reflexivity; try discriminate.
Qed.

Lemma handleDirectionChange_gentle :
  forall st d, gentleInput st (handleDirectionChange st d).
Proof.
  intros st d; unfold gentleInput, boardKept, handleDirectionChange.
  destruct (gameOver st) eqn:Hover.
  - cbv iota. rewrite ?Hover.
    repeat split; try reflexivity. destruct (direction st); discriminate.
  - destruct (direction st) eqn:Hd, d; simpl; rewrite ?Hd, ?Hover;
      repeat split; try reflexivity; try discriminate.
Qed.

Lemma handleTouchMove_gentle :
  forall st sx sy ex ey, gentleInput st (handleTouchMove st sx sy ex ey).
Proof.
  intros st sx sy ex ey; unfold gentleInput, boardKept, handleTouchMove.
  destruct (gameOver st) eqn:Hover.
  - rewrite !orb_true_r. rewrite ?Hover.
    repeat split; try reflexivity. destruct (direction st); discriminate.
  - rewrite orb_false_r.
    destruct (direction st) eqn:Hd;
      repeat match goal with
             | |- context [Qle_bool ?a ?b] => destruct (Qle_bool a b)
             | |- context [Qeq_bool ?a ?b] => destruct (Qeq_bool a b)
             end;
      cbn [negb andb orb direction_eqb snake food direction gameOver isPaused
           score speed setDirection opposite];
      rewrite ?Hd, ?Hover; repeat split; try reflexivity; try discriminate.
Qed.

Lemma handleTouchMove_over :
  forall st sx sy ex ey,
    gameOver st = true -> handleTouchMove st sx sy ex ey = st.
Proof.
  intros st sx sy ex ey Hover; unfold handleTouchMove.
  rewrite Hover, !orb_true_r. reflexivity.
Qed.

Lemma togglePause_gentle : forall st, gentleInput st (togglePause st).
Proof.
  intros st; unfold gentleInput, boardKept, togglePause; simpl.
  repeat split. destruct (direction st); discriminate.
Qed.

(** X4.  No input turns the snake round or touches the board: after a
    key, an arrow button, a swipe or the pause button, the body, the
    food, the score, the interval and the game-over flag are what they
    were, and the direction is not the opposite of the one before. *)
Theorem inputs_keep_board_and_heading :
  forall st,
    (forall key,
        boardKept st (handleKeyDown st key) /\
        direction (handleKeyDown st key) <> opposite (direction st)) /\
    (forall d,
        boardKept st (handleDirectionChange st d) /\
        direction (handleDirectionChange st d) <> opposite (direction st)) /\
    (forall sx sy ex ey,
        boardKept st (handleTouchMove st sx sy ex ey) /\
        direction (handleTouchMove st sx sy ex ey) <> opposite (direction st)) /\
    (boardKept st (togglePause st) /\
     direction (togglePause st) = direction st).
Proof.
  intros st. split; [|split; [|split]].
  - intros key. exact (handleKeyDown_gentle st key).
  - intros d. exact (handleDirectionChange_gentle st d).
  - intros sx sy ex ey. exact (handleTouchMove_gentle st sx sy ex ey).
  - split; [exact (proj1 (togglePause_gentle st)) | reflexivity].
Qed.

(** ** What every reachable state satisfies *)

Lemma setGameOver_same :
  forall st, gameOver st = true -> setGameOver st true = st.
Proof.
  intros [sn fo di go pa sc sp]; simpl; intros ->; reflexivity.
Qed.

Lemma gameOk_input :
  forall st st',
    gameOk st ->
    boardKept st st' ->
    (gameOver st = true -> direction st' = direction st) ->
    gameOk st'.
Proof.
  intros st st' [Hok [Hscore [Hspeed Hover]]] [Hs [Hf [Hg [Hsc Hsp]]]] Hdir.
  unfold gameOk, segments_count, fatalAhead in *.
  rewrite Hs, Hg, Hsc, Hsp.
  repeat split; try assumption; try apply Hok.
  intros Hgo. rewrite (Hdir Hgo). exact (Hover Hgo).
Qed.

Lemma gameOk_ticked :
  forall st st', gameOk st -> ticked st st' -> gameOk st'.
Proof.
  intros st st' [Hok [Hscore [Hspeed Hover]]] Ht.
  unfold segments_count in Hscore, Hspeed.
  destruct Ht as [f He | seg0 tl Hs Hhit
                  | seg0 tl f Hs Hw Hb Hf | seg0 tl f Hs Hw Hb Hf].
  - destruct Hok as [Hne _]. contradiction.
  - unfold gameOk, segments_count, fatalAhead; simpl.
    repeat split; try assumption; try apply Hok.
    intros _. rewrite Hs. rewrite <- Hs. exact Hhit.
  - assert (Hnot : gameOver st = false).
    { destruct (gameOver st) eqn:Hgo; [|reflexivity].
      specialize (Hover eq_refl). unfold fatalAhead in Hover. rewrite Hs in Hover.
      rewrite <- Hs in Hover. destruct Hover; congruence. }
    rewrite Hs in Hok, Hb, Hscore, Hspeed.
    unfold gameOk, segments_count, fatalAhead.
    cbn [snake food direction gameOver isPaused score speed]. rewrite Hs.
    split; [apply grown_snakeOk; assumption|].
    cbn [List.length] in *.
    split; [lia|]. split; [|rewrite Hnot; discriminate].
    destruct (speed st >? 50) eqn:Hgt.
    + rewrite Z.gtb_ltb, Z.ltb_lt in Hgt. lia.
    + rewrite Z.gtb_ltb, Z.ltb_ge in Hgt. lia.
  - assert (Hnot : gameOver st = false).
    { destruct (gameOver st) eqn:Hgo; [|reflexivity].
      specialize (Hover eq_refl). unfold fatalAhead in Hover. rewrite Hs in Hover.
      rewrite <- Hs in Hover. destruct Hover; congruence. }
    rewrite Hs in Hok, Hb, Hscore, Hspeed.
    unfold gameOk, segments_count, fatalAhead.
    cbn [snake food direction gameOver isPaused score speed]. rewrite Hs.
    split; [apply slid_snakeOk; assumption|].
    rewrite length_removelast_cons.
    split; [exact Hscore|]. split; [exact Hspeed|].
    rewrite Hnot; discriminate.
Qed.

Lemma gameOk_fresh :
  forall newFood isPaused0,
    gameOk (mkGame [mkPosition 10 10] newFood RIGHT false isPaused0 0 initialSpeed).
Proof.
  intros f pa. unfold gameOk, segments_count, snakeOk, initialSpeed; simpl.
  repeat split; try discriminate; try lia.
  - constructor; [intros [] | constructor].
  - constructor; [|constructor]. unfold inGrid, gridSize; simpl; lia.
Qed.

Lemma restart_inv :
  forall st draws st' rest,
    restart st draws = Some (st', rest) ->
    exists newFood,
      ~ In newFood [mkPosition 10 10] /\
      st' = mkGame [mkPosition 10 10] newFood RIGHT false false 0 initialSpeed.
Proof.
  intros st draws st' rest H. unfold restart, resetGame, bind, ret in H.
  destruct (generateFood (snake st) draws) as [[f1 mid]|]; [|discriminate].
  unfold commit in H; cbn [snakeReplaced next] in H.
  apply initFoodEffect_inv in H. destruct H as [f2 [Hg ->]].
  exists f2. split; [|reflexivity].
  eapply generateFood_off_segments; exact Hg.
Qed.

Lemma step_gameOk : forall st st', gameOk st -> step st st' -> gameOk st'.
Proof.
  intros st st' Hok Hstep.
  destruct Hstep as [st draws st' rest H | st key | st d | st sx sy ex ey | st].
  - apply (gameOk_ticked st st' Hok). eapply advance_ticked; exact H.
  - apply (gameOk_input st _ Hok (proj1 (handleKeyDown_gentle st key))).
    intros Hgo. rewrite (handleKeyDown_over st key Hgo). reflexivity.
  - apply (gameOk_input st _ Hok (proj1 (handleDirectionChange_gentle st d))).
    intros Hgo. rewrite (handleDirectionChange_over st d Hgo). reflexivity.
  - apply (gameOk_input st _ Hok (proj1 (handleTouchMove_gentle st sx sy ex ey))).
    intros Hgo. rewrite (handleTouchMove_over st sx sy ex ey Hgo). reflexivity.
  - apply (gameOk_input st _ Hok (proj1 (togglePause_gentle st))).
    intros _. reflexivity.
Qed.

Lemma reachable_gameOk : forall st, reachable st -> gameOk st.
Proof.
  intros st H; induction H as [| draws st rest H | st st' _ IH Hstep
                               | st draws st' rest _ _ H
                               | st draws u rest _ IH H
                               | st draws u rest _ _ H].
  - apply (gameOk_fresh (mkPosition 5 5) true).
  - apply initFoodEffect_inv in H. destruct H as [f [Hg ->]].
    apply (gameOk_fresh f true).
  - exact (step_gameOk st st' IH Hstep).
  - apply restart_inv in H. destruct H as [f [Hoff ->]].
    exact (gameOk_fresh f false).
  - apply (gameOk_ticked st (next u) IH). eapply moveSnake_ticked; exact H.
  - unfold resetGame, bind, ret in H.
    destruct (generateFood (snake st) draws) as [[f r]|]; [|discriminate].
    inversion H; subst u. exact (gameOk_fresh f false).
Qed.

Lemma run_reachable :
  forall n st draws st' rest,
    reachable st -> run n st draws = Some (st', rest) -> reachable st'.
Proof.
  induction n as [|n IH]; intros st draws st' rest Hr H.
  - unfold run, ret in H. inversion H; subst. exact Hr.
  - cbn [run] in H. unfold bind in H.
    destruct (advance st draws) as [[st1 mid]|] eqn:Ha; [|discriminate].
    apply (IH st1 mid st' rest); [|exact H].
    apply (reach_step st st1 Hr). exact (step_tick st draws st1 mid Ha).
Qed.

Lemma afterFirstTick_reachable : reachable afterFirstTick.
Proof.
  apply (run_reachable 1 initialState drawsCentreTwice afterFirstTick
           [10; 10; 2; 1] reach_first_render).
  reflexivity.
Qed.

Lemma crashed_reachable : reachable crashed.
Proof.
  apply (run_reachable 10 (handleKeyDown initialState " ") drawsHalves crashed
           [10; 10]).
  - apply (reach_step initialState _ reach_first_render). apply step_key.
  - vm_compute. reflexivity.
Qed.

(** C8.  The restart handler writes the six fixed cells as stated, the
    one-cell snake [(10,10)], direction RIGHT, score 0, interval 150,
    not paused, not over, but it draws the food against the body of
    the last render and not against the snake it installs: from the
    reachable finished game with the snake [(19,10)] and the draws 10
    and 10, the state [resetGame] commits has the food on (10,10), the
    cell of the new snake. *)
Theorem resetGame_places_food_on_new_snake :
  reachable crashed /\
  generateFood (snake crashed) [10; 10] = Some (mkPosition 10 10, []) /\
  resetGame crashed [10; 10]
  = Some ({| next := {| snake := [mkPosition 10 10];
                        food := mkPosition 10 10;
                        direction := RIGHT;
                        gameOver := false;
                        isPaused := false;
                        score := 0;
                        speed := 150 |};
             snakeReplaced := true |}, []) /\
  In (mkPosition 10 10) [mkPosition 10 10].
Proof.
  split; [exact crashed_reachable|].
  split; [reflexivity|]. split; [reflexivity|]. left; reflexivity.
Qed.

Lemma afterMeal_reachable : reachable afterMeal.
Proof.
  apply (reach_step (mkGame [mkPosition 10 10] (mkPosition 11 10)
                            RIGHT false false 0 150) afterMeal).
  - apply (reach_restart initialState [11; 10; 11; 10] _ [] reach_first_render).
    reflexivity.
  - apply (step_tick _ [2; 1; 2; 1] afterMeal []). reflexivity.
Qed.

(** X5.  In every state the component can show, the body is not empty,
    holds no cell twice, lies on the 20 by 20 board, and each segment
    shares a side with the one behind it. *)
Theorem reachable_snake_shape :
  forall st,
    reachable st ->
    snake st <> [] /\
    NoDup (snake st) /\
    (forall p, In p (snake st) -> 0 <= x p < 20 /\ 0 <= y p < 20) /\
    chain (snake st).
Proof.
  intros st Hr. destruct (reachable_gameOk st Hr) as [[Hne [Hnd [Hg Hc]]] _].
  split; [exact Hne|]. split; [exact Hnd|]. split; [|exact Hc].
  intros p Hp. apply (proj1 (Forall_forall _ _) Hg p Hp).
Qed.

Lemma reachable_snake_shape_witness :
  snake afterMeal <> [] /\
  NoDup (snake afterMeal) /\
  (forall p, In p (snake afterMeal) -> 0 <= x p < 20 /\ 0 <= y p < 20) /\
  chain (snake afterMeal).
Proof.
  exact (reachable_snake_shape afterMeal afterMeal_reachable).
Defined.

(** X6.  In every state the component can show, the score is ten times
    the number of segments behind the head, and the interval is 150
    less two for each of them, but never under 50. *)
Theorem reachable_score_speed_by_length :
  forall st,
    reachable st ->
    score st = 10 * (Z.of_nat (List.length (snake st)) - 1) /\
    speed st = Z.max 50 (150 - 2 * (Z.of_nat (List.length (snake st)) - 1)).
Proof.
  intros st Hr. destruct (reachable_gameOk st Hr) as [_ [Hsc [Hsp _]]].
  split; [exact Hsc | exact Hsp].
Qed.

Lemma reachable_score_speed_by_length_witness :
  score afterMeal = 10 * (Z.of_nat (List.length (snake afterMeal)) - 1) /\
  speed afterMeal = Z.max 50 (150 - 2 * (Z.of_nat (List.length (snake afterMeal)) - 1)).
Proof.
  exact (reachable_score_speed_by_length afterMeal afterMeal_reachable).
Defined.

(** X7.  The placement effect puts the food on a cell that no segment
    of the current snake occupies and writes nothing else.  Hence a
    tick taken up to the next stable render keeps the food off the
    snake when it was off before, and a restart taken up to the next
    stable render always ends with the food off the snake.  The state
    committed in between, the callback's own update, is not covered:
    there the food can lie on the snake. *)
Theorem placement_effect_keeps_food_off_snake :
  (forall st draws st' rest,
      initFoodEffect st draws = Some (st', rest) ->
      ~ In (food st') (snake st') /\
      snake st' = snake st /\ direction st' = direction st /\
      gameOver st' = gameOver st /\ isPaused st' = isPaused st /\
      score st' = score st /\ speed st' = speed st) /\
  (forall st draws st' rest,
      advance st draws = Some (st', rest) ->
      ~ In (food st) (snake st) ->
      ~ In (food st') (snake st')) /\
  (forall st draws st' rest,
      restart st draws = Some (st', rest) ->
      ~ In (food st') (snake st')).
Proof.
  split; [|split].
  - intros st draws st' rest H.
    apply initFoodEffect_inv in H. destruct H as [f [Hg ->]].
    split; [|repeat split].
    simpl. eapply generateFood_off_segments; exact Hg.
  - intros st draws st' rest H Hoff.
    apply advance_inv in H. destruct H as [u [mid [Hm Hc]]].
    destruct (snakeReplaced u) eqn:Hrep.
    + exact (commit_food_off_snake u mid st' rest Hrep Hc).
    + destruct (moveSnake_kept_snake st draws u mid Hm Hrep) as [Hs Hf].
      unfold commit in Hc. rewrite Hrep in Hc. unfold ret in Hc.
      inversion Hc; subst st'. rewrite Hs, Hf. exact Hoff.
  - intros st draws st' rest H.
    apply restart_inv in H. destruct H as [f [Hoff ->]]. exact Hoff.
Qed.

(** X8.  A finished game stays as it is: in a reachable state with
    [gameOver] set, a firing of the interval returns the very same
    state without using a draw, and keys, arrow buttons and swipes
    change nothing. *)
Theorem game_over_is_frozen :
  forall st,
    reachable st ->
    gameOver st = true ->
    (forall draws, advance st draws = Some (st, draws)) /\
    (forall key, handleKeyDown st key = st) /\
    (forall d, handleDirectionChange st d = st) /\
    (forall sx sy ex ey, handleTouchMove st sx sy ex ey = st).
Proof.
  intros st Hr Hover.
  destruct (reachable_gameOk st Hr) as [_ [_ [_ Hf]]].
  specialize (Hf Hover). unfold fatalAhead in Hf.
  destruct (snake st) as [|seg0 tl] eqn:Hs; [contradiction|].
  split; [|split; [|split]].
  - intros draws. rewrite <- Hs in Hf.
    destruct (advance_fatal st seg0 tl draws Hs Hf) as [_ Ha].
    rewrite Ha. rewrite (setGameOver_same st Hover). reflexivity.
  - intros key. exact (handleKeyDown_over st key Hover).
  - intros d. exact (handleDirectionChange_over st d Hover).
  - intros sx sy ex ey. exact (handleTouchMove_over st sx sy ex ey Hover).
Qed.

Lemma game_over_is_frozen_witness :
  advance crashed drawsCentreTwice = Some (crashed, drawsCentreTwice) /\
  handleKeyDown crashed "ArrowUp" = crashed.
Proof.
  destruct (game_over_is_frozen crashed crashed_reachable eq_refl) as [Ht [Hk _]].
  split; [exact (Ht drawsCentreTwice) | exact (Hk "ArrowUp"%string)].
Defined.

(** ** Runs without restart *)

Lemma ticked_grows :
  forall st st',
    ticked st st' ->
    score st <= score st' /\
    (List.length (snake st) <= List.length (snake st'))%nat /\
    (gameOver st = true -> gameOver st' = true).
Proof.
  intros st st' Ht.
  destruct Ht as [f He | seg0 tl Hs Hhit
                  | seg0 tl f Hs Hw Hb Hf | seg0 tl f Hs Hw Hb Hf];
    cbn [snake food direction gameOver isPaused score speed setFood setGameOver].
  - split; [lia|]. split; [lia | tauto].
  - split; [lia|]. split; [lia | reflexivity].
  - split; [lia|]. split; [cbn [List.length]; lia | tauto].
  - split; [lia|]. split; [rewrite length_removelast_cons; lia | tauto].
Qed.

Lemma step_grows :
  forall st st',
    step st st' ->
    score st <= score st' /\
    (List.length (snake st) <= List.length (snake st'))%nat /\
    (gameOver st = true -> gameOver st' = true).
Proof.
  assert (Hkept : forall st st', boardKept st st' ->
            score st <= score st' /\
            (List.length (snake st) <= List.length (snake st'))%nat /\
            (gameOver st = true -> gameOver st' = true)).
  { intros st st' [Hs [_ [Hg [Hsc _]]]]. rewrite Hs, Hg, Hsc.
    split; [lia|]. split; [lia | tauto]. }
  intros st st' Hstep.
  destruct Hstep as [st draws st' rest H | st key | st d | st sx sy ex ey | st].
  - apply ticked_grows. eapply advance_ticked; exact H.
  - apply Hkept. exact (proj1 (handleKeyDown_gentle st key)).
  - apply Hkept. exact (proj1 (handleDirectionChange_gentle st d)).
  - apply Hkept. exact (proj1 (handleTouchMove_gentle st sx sy ex ey)).
  - apply Hkept. exact (proj1 (togglePause_gentle st)).
Qed.

(** X9.  Over any run of ticks and inputs without a restart, from any
    state, the score and the length of the body never decrease, and a
    game that is over stays over. *)
Theorem run_never_shrinks :
  forall st st',
    steps st st' ->
    score st <= score st' /\
    (List.length (snake st) <= List.length (snake st'))%nat /\
    (gameOver st = true -> gameOver st' = true).
Proof.
  intros st st' H; induction H as [st | st mid st' Hstep _ IH].
  - split; [lia|]. split; [lia | tauto].
  - destruct (step_grows st mid Hstep) as [H1 [H2 H3]].
    destruct IH as [I1 [I2 I3]].
    split; [lia|]. split; [lia|]. intros Hgo. apply I3. apply H3. exact Hgo.
Qed.

Lemma run_never_shrinks_witness :
  score scenarioEat <= 10 /\ (List.length (snake scenarioEat) <= 2)%nat.
Proof.
  destruct (run_never_shrinks scenarioEat
              (mkGame [mkPosition 2 1; mkPosition 1 1] (mkPosition 10 10)
                      RIGHT false false 10 148)
              (rt1n_trans _ _ _ _ _
                 (step_tick scenarioEat drawsCentreTwice _ [2; 1] eq_refl)
                 (rt1n_refl _ _ _))) as [Hscore [Hlen _]].
  split; [exact Hscore | exact Hlen].
Defined.

(** X10.  A tick that moves the snake without eating still replaces
    the food: the next state has the body shifted by one cell and, as
    food, the first drawn cell that is off that shifted body, whatever
    the old food was; score, interval and flags are kept. *)
Theorem advance_redraws_uneaten_food :
  forall st seg0 tl draws newFood rest,
    snake st = seg0 :: tl ->
    hitsWall (moveHead (direction st) seg0) = false ->
    hitsSelf (snake st) (moveHead (direction st) seg0) = false ->
    moveHead (direction st) seg0 <> food st ->
    generateFood (removelast (moveHead (direction st) seg0 :: snake st)) draws
    = Some (newFood, rest) ->
    advance st draws
    = Some ({| snake := removelast (moveHead (direction st) seg0 :: snake st);
               food := newFood;
               direction := direction st;
               gameOver := gameOver st;
               isPaused := isPaused st;
               score := score st;
               speed := speed st |}, rest).
Proof.
  intros st seg0 tl draws newFood rest Hs Hw Hb Hf Hg.
  unfold advance, bind.
  rewrite (moveSnake_slides st seg0 tl draws Hs Hw Hb Hf).
  unfold commit, initFoodEffect, bind, ret.
  cbn [snakeReplaced next snake]. rewrite Hg. reflexivity.
Qed.

Lemma advance_redraws_uneaten_food_witness :
  advance (handleKeyDown initialState " ") drawsCentreTwice
  = Some ({| snake := [mkPosition 11 10];
             food := mkPosition 10 10;
             direction := RIGHT;
             gameOver := false;
             isPaused := false;
             score := 0;
             speed := 150 |}, [10; 10; 2; 1]).
Proof.
  exact (advance_redraws_uneaten_food (handleKeyDown initialState " ")
           (mkPosition 10 10) []
           drawsCentreTwice (mkPosition 10 10) [10; 10; 2; 1]
           eq_refl eq_refl eq_refl ltac:(discriminate) eq_refl).
Defined.

(** ** Keys and the pause toggle *)

Lemma keyIs_false :
  forall key names, ~ In key names -> keyIs key names = false.
Proof.
  intros k names Hnot; unfold keyIs.
  destruct (existsb (String.eqb k) names) eqn:He; [|reflexivity].
  apply existsb_exists in He. destruct He as [n [Hin Heq]].
  apply String.eqb_eq in Heq. subst n. contradiction.
Qed.

(** X11.  The key listener reacts to thirteen key names only, the four
    arrows, [w a s d] in either case and the space: any other key
    leaves the state as it is. *)
Theorem handleKeyDown_ignores_other_keys :
  forall st k,
    ~ In k ["ArrowUp"; "w"; "W"; "ArrowDown"; "s"; "S"; "ArrowLeft"; "a"; "A";
            "ArrowRight"; "d"; "D"; " "]%string ->
    handleKeyDown st k = st.
Proof.
  intros st k Hnot. unfold handleKeyDown.
  destruct (gameOver st); [reflexivity|].
  rewrite !keyIs_false; [reflexivity | | | | |];
    intros Hin; apply Hnot; simpl in Hin |- *; tauto.
Qed.

Lemma handleKeyDown_ignores_other_keys_witness :
  handleKeyDown scenarioTurn "Enter" = scenarioTurn
  /\ handleKeyDown scenarioTurn "arrowup" = scenarioTurn.
Proof.
  split.
  - apply (handleKeyDown_ignores_other_keys scenarioTurn "Enter"%string).
    simpl. intros H.
    repeat (destruct H as [H | H]; [discriminate H|]). exact H.
  - apply (handleKeyDown_ignores_other_keys scenarioTurn "arrowup"%string).
    simpl. intros H.
    repeat (destruct H as [H | H]; [discriminate H|]). exact H.
Defined.

(** X12.  Two pause toggles in a row, by the button or by the space
    key, give back the state they started from.  While the game is not
    over the space key does what the button does; once it is over the
    key is ignored, and the button still flips [isPaused]. *)
Theorem pause_toggles :
  forall st,
    togglePause (togglePause st) = st /\
    handleKeyDown (handleKeyDown st " ") " " = st /\
    (gameOver st = false -> handleKeyDown st " " = togglePause st) /\
    (gameOver st = true ->
     handleKeyDown st " " = st /\ isPaused (togglePause st) = negb (isPaused st)).
Proof.
  intros [sn fo di go pa sc sp]; unfold togglePause, handleKeyDown; simpl.
  split; [rewrite negb_involutive; reflexivity|].
  split; [destruct go; simpl; [reflexivity | rewrite negb_involutive; reflexivity]|].
  split; [intros ->; reflexivity | intros ->; split; reflexivity].
Qed.

(** ** The rendered grid *)

Lemma upTo_length : forall n, List.length (upTo n) = Z.to_nat n.
Proof. intros n; unfold upTo. rewrite length_map, length_seq. reflexivity. Qed.

Lemma upTo_nth_error :
  forall n k, 0 <= k < n -> nth_error (upTo n) (Z.to_nat k) = Some k.
Proof.
  intros n k Hk; unfold upTo.
  rewrite nth_error_map.
  rewrite (nth_error_nth' (seq 0 (Z.to_nat n)) 0%nat) by (rewrite length_seq; lia).
  rewrite seq_nth by lia. simpl. f_equal. lia.
Qed.

Lemma nth_error_rows :
  forall (A B : Type) (g : A -> list B) (m : nat),
    (forall r, List.length (g r) = m) ->
    forall l i j r,
      nth_error l i = Some r -> (j < m)%nat ->
      nth_error (flat_map g l) (i * m + j) = nth_error (g r) j.
Proof.
  intros A B g m Hm l; induction l as [|a l IH]; intros i j r Hi Hj.
  - destruct i; discriminate Hi.
  - destruct i as [|i]; simpl in Hi; cbn [flat_map].
    + inversion Hi; subst a. simpl. apply nth_error_app1. rewrite Hm. exact Hj.
    + rewrite nth_error_app2 by (rewrite Hm; simpl; lia).
      rewrite Hm. replace (S i * m + j - m)%nat with (i * m + j)%nat by (simpl; lia).
      apply IH; assumption.
Qed.

(** X13.  For a non-empty snake [renderGrid] returns 400 cells in row
    order: the cell of column [cx] and row [cy] sits at index
    [20 * cy + cx], carries the key ["cx-cy"], and is classed as the
    head when it is [snake[0]], else as snake when a later segment is
    on it, else as food when the food is on it, else as a plain cell.
    For an empty snake the function throws. *)
Theorem renderGrid_layout :
  forall st,
    (snake st = [] -> renderGrid st = None) /\
    (forall seg0 tl,
        snake st = seg0 :: tl ->
        exists cells,
          renderGrid st = Some cells /\
          List.length cells = 400%nat /\
          forall cx cy,
            0 <= cx < 20 -> 0 <= cy < 20 ->
            nth_error cells (Z.to_nat (20 * cy + cx))
            = Some {| key := (numberToString cx ++ "-" ++ numberToString cy)%string;
                      className :=
                        if samePos seg0 (mkPosition cx cy) then "cell snake-head"%string
                        else if onSnake (mkPosition cx cy) tl then "cell snake"%string
                        else if samePos (food st) (mkPosition cx cy) then "cell food"%string
                        else "cell"%string |}).
Proof.
  intros st; split.
  - intros Hs. unfold renderGrid. rewrite Hs. reflexivity.
  - intros seg0 tl Hs. unfold renderGrid. rewrite Hs.
    eexists; split; [reflexivity|]. split.
    + unfold upTo, gridSize. vm_compute. reflexivity.
    + intros cx cy Hx Hy.
      replace (Z.to_nat (20 * cy + cx))
        with (Z.to_nat cy * 20 + Z.to_nat cx)%nat by lia.
      rewrite (nth_error_rows Z Cell
                 (fun cy0 => map (fun cx0 => cellAt st seg0 cx0 cy0) (upTo gridSize))
                 20%nat)
        with (r := cy).
      * rewrite nth_error_map.
        rewrite (upTo_nth_error gridSize cx) by (unfold gridSize; lia).
        unfold cellAt, samePos, onSnake. rewrite Hs. cbn [option_map List.tl x y].
        destruct ((x seg0 =? cx) && (y seg0 =? cy)); [reflexivity|].
        destruct (existsb _ tl); [reflexivity|].
        destruct ((x (food st) =? cx) && (y (food st) =? cy)); reflexivity.
      * intros r. rewrite length_map, upTo_length. reflexivity.
      * apply upTo_nth_error. unfold gridSize; lia.
      * lia.
Qed.

Lemma renderGrid_layout_witness :
  exists cells,
    renderGrid scenarioBite = Some cells /\
    nth_error cells 105
    = Some {| key := "5-5"%string; className := "cell snake-head"%string |} /\
    nth_error cells 126
    = Some {| key := "6-6"%string; className := "cell snake"%string |} /\
    nth_error cells 147
    = Some {| key := "7-7"%string; className := "cell food"%string |}.
Proof.
  destruct (proj2 (renderGrid_layout scenarioBite)
              (mkPosition 5 5) [mkPosition 6 5; mkPosition 6 6] eq_refl)
    as [cells [Hr [_ Hcell]]].
  exists cells. split; [exact Hr|]. split; [|split].
  - exact (Hcell 5 5 ltac:(lia) ltac:(lia)).
  - exact (Hcell 6 6 ltac:(lia) ltac:(lia)).
  - exact (Hcell 7 7 ltac:(lia) ltac:(lia)).
Defined.

Lemma renderGrid_cell_In :
  forall st seg0 tl cells c,
    snake st = seg0 :: tl ->
    renderGrid st = Some cells ->
    (In c cells <->
     exists cx cy, 0 <= cx < 20 /\ 0 <= cy < 20 /\ c = cellAt st seg0 cx cy).
Proof.
  intros st seg0 tl cells c Hs Hr. unfold renderGrid in Hr. rewrite Hs in Hr.
  assert (Hc : cells
               = flat_map
                   (fun cy => map (fun cx => cellAt st seg0 cx cy) (upTo gridSize))
                   (upTo gridSize)) by congruence.
  subst cells. clear Hr.
  rewrite in_flat_map. split.
  - intros [cy [Hy Hc]]. apply in_map_iff in Hc. destruct Hc as [cx [Hc Hx]].
    apply upTo_In in Hy. apply upTo_In in Hx. unfold gridSize in *.
    exists cx, cy. split; [exact Hx|]. split; [exact Hy | symmetry; exact Hc].
  - intros [cx [cy [Hx [Hy ->]]]]. exists cy.
    split; [apply upTo_In; unfold gridSize; exact Hy|].
    apply in_map_iff. exists cx.
    split; [reflexivity | apply upTo_In; unfold gridSize; exact Hx].
Qed.

(** X14.  What the grid shows: some cell is classed as food exactly
    when the food is on the board and on no segment of the snake, head
    included; some cell is classed as the head exactly when [snake[0]]
    is on the board. *)
Theorem renderGrid_shows :
  forall st seg0 tl cells,
    snake st = seg0 :: tl ->
    renderGrid st = Some cells ->
    ((exists c, In c cells /\ className c = "cell food"%string) <->
     (0 <= x (food st) < 20 /\ 0 <= y (food st) < 20) /\
     ~ In (food st) (snake st)) /\
    ((exists c, In c cells /\ className c = "cell snake-head"%string) <->
     0 <= x seg0 < 20 /\ 0 <= y seg0 < 20).
Proof.
  intros st seg0 tl cells Hs Hr.
  pose proof (fun c => renderGrid_cell_In st seg0 tl cells c Hs Hr) as Hin.
  split; split.
  - intros [c [Hc Hclass]]. apply Hin in Hc.
    destruct Hc as [cx [cy [Hx [Hy ->]]]].
    unfold cellAt in Hclass; cbn [className] in Hclass. rewrite Hs in Hclass.
    cbn [List.tl] in Hclass.
    destruct ((x seg0 =? cx) && (y seg0 =? cy)) eqn:Hh; [discriminate Hclass|].
    destruct (existsb _ tl) eqn:Hb; [discriminate Hclass|].
    destruct ((x (food st) =? cx) && (y (food st) =? cy)) eqn:Hf;
      [|discriminate Hclass].
    assert (Hfood : food st = mkPosition cx cy).
    { apply samePos_true_iff. exact Hf. }
    rewrite Hfood, Hs. cbn [x y]. split; [split; assumption|].
    intros [Heq | Hintl].
    + rewrite Heq in Hh. cbn [x y] in Hh. rewrite !Z.eqb_refl in Hh. discriminate.
    + apply onSnake_In in Hintl. unfold onSnake, samePos in Hintl.
      cbn [x y] in Hintl. congruence.
  - intros [[Hx Hy] Hoff].
    exists (cellAt st seg0 (x (food st)) (y (food st))). split.
    + apply Hin. exists (x (food st)), (y (food st)).
      split; [exact Hx | split; [exact Hy | reflexivity]].
    + rewrite Hs in Hoff.
      unfold cellAt; cbn [className]. rewrite Hs. cbn [List.tl].
      destruct ((x seg0 =? x (food st)) && (y seg0 =? y (food st))) eqn:Hh.
      { exfalso. apply Hoff. left. apply samePos_true_iff. exact Hh. }
      destruct (existsb _ tl) eqn:Hb.
      { exfalso. apply Hoff. right. apply onSnake_In.
        unfold onSnake, samePos. exact Hb. }
      rewrite !Z.eqb_refl. reflexivity.
  - intros [c [Hc Hclass]]. apply Hin in Hc.
    destruct Hc as [cx [cy [Hx [Hy ->]]]].
    unfold cellAt in Hclass; cbn [className] in Hclass.
    destruct ((x seg0 =? cx) && (y seg0 =? cy)) eqn:Hh.
    + apply andb_true_iff in Hh. destruct Hh as [H1 H2].
      apply Z.eqb_eq in H1. apply Z.eqb_eq in H2. lia.
    + revert Hclass.
      destruct (existsb _ _);
        [intros Hclass; vm_compute in Hclass; discriminate Hclass|].
      destruct ((x (food st) =? cx) && (y (food st) =? cy));
        intros Hclass; vm_compute in Hclass; discriminate Hclass.
  - intros [Hx Hy].
    exists (cellAt st seg0 (x seg0) (y seg0)). split.
    + apply Hin. exists (x seg0), (y seg0).
      split; [exact Hx | split; [exact Hy | reflexivity]].
    + unfold cellAt; cbn [className]. rewrite !Z.eqb_refl. reflexivity.
Qed.

Lemma renderGrid_shows_witness :
  exists c cells,
    renderGrid scenarioBite = Some cells /\
    In c cells /\ className c = "cell food"%string.
Proof.
  destruct (renderGrid_shows scenarioBite (mkPosition 5 5)
              [mkPosition 6 5; mkPosition 6 6] _ eq_refl eq_refl) as [[_ Hfood] _].
  destruct Hfood as [c [Hc Hclass]].
  - split; [simpl; lia|]. simpl. intros H.
    repeat (destruct H as [H | H]; [discriminate H|]). exact H.
  - exists c. eexists. split; [reflexivity|]. split; [exact Hc | exact Hclass].
Defined.

Lemma allDistinct_NoDup : forall l, allDistinct l = true -> NoDup l.
Proof.
  induction l as [|a l IH]; intros H.
  - constructor.
  - cbn [allDistinct] in H. apply andb_true_iff in H. destruct H as [Ha Hl].
    constructor; [|apply IH; exact Hl].
    intros Hin. apply negb_true_iff in Ha.
    assert (Ht : existsb (String.eqb a) l = true).
    { apply existsb_exists. exists a. split; [exact Hin | apply String.eqb_refl]. }
    congruence.
Qed.

(** X15.  The React keys of the rendered cells are pairwise distinct,
    whatever the state. *)
Theorem renderGrid_keys_distinct :
  forall st cells,
    renderGrid st = Some cells ->
    NoDup (map key cells).
Proof.
  intros st cells Hr. unfold renderGrid in Hr.
  destruct (snake st) as [|seg0 tl]; [discriminate Hr|].
  assert (Hc : cells
               = flat_map
                   (fun cy => map (fun cx => cellAt st seg0 cx cy) (upTo gridSize))
                   (upTo gridSize)) by congruence.
  subst cells. clear Hr.
  apply allDistinct_NoDup.
  rewrite flat_map_concat_map, concat_map, map_map.
  erewrite map_ext; [|intros cy; rewrite map_map; reflexivity].
  cbn [cellAt key]. vm_compute. reflexivity.
Qed.

Lemma renderGrid_keys_distinct_witness :
  exists cells, renderGrid scenarioBite = Some cells /\ NoDup (map key cells).
Proof.
  eexists. split; [reflexivity|].
  exact (renderGrid_keys_distinct scenarioBite _ eq_refl).
Defined.

(** ** The timer *)

Lemma settle_inv :
  forall a u draws a' rest,
    settle a u draws = Some (a', rest) ->
    exists g,
      commit u draws = Some (g, rest) /\
      a' = {| game := g;
              armed := if snakeReplaced u then gameLoopEffect g else armed a |}.
Proof.
  intros a u draws a' rest H. unfold settle, bind, ret in H.
  destruct (commit u draws) as [[g r]|]; [|discriminate].
  inversion H; subst. exists g. split; reflexivity.
Qed.

Lemma appStep_disarmed :
  forall a a',
    appStep a a' -> armed a = false ->
    armed a' = false /\ boardKept (game a) (game a').
Proof.
  intros a a' H Hoff.
  destruct H as [a draws a' rest Hon _ | a k | a d | a sx sy ex ey | a].
  - congruence.
  - split; [exact Hoff | exact (proj1 (handleKeyDown_gentle (game a) k))].
  - split; [exact Hoff | exact (proj1 (handleDirectionChange_gentle (game a) d))].
  - split; [exact Hoff | exact (proj1 (handleTouchMove_gentle (game a) sx sy ex ey))].
  - split; [exact Hoff | exact (proj1 (togglePause_gentle (game a)))].
Qed.

Lemma boardKept_trans :
  forall g1 g2 g3, boardKept g1 g2 -> boardKept g2 g3 -> boardKept g1 g3.
Proof.
  intros g1 g2 g3 [A1 [A2 [A3 [A4 A5]]]] [B1 [B2 [B3 [B4 B5]]]].
  unfold boardKept. rewrite B1, B2, B3, B4, B5. repeat split; assumption.
Qed.

Lemma appSteps_disarmed :
  forall a a',
    appSteps a a' -> armed a = false ->
    armed a' = false /\ boardKept (game a) (game a').
Proof.
  intros a a' H; induction H as [a | a mid a' Hstep _ IH]; intros Hoff.
  - split; [exact Hoff | unfold boardKept; repeat split].
  - destruct (appStep_disarmed a mid Hstep Hoff) as [Hmid Hk].
    destruct (IH Hmid) as [Hoff' Hk'].
    split; [exact Hoff' | exact (boardKept_trans _ _ _ Hk Hk')].
Qed.

(** X16.  Once no interval is live, nothing but Restart brings one
    back: over any run of keys, arrow buttons, swipes and pause clicks
    the timer stays off and the body, the food, the score, the
    interval length and the game-over flag stay as they were.  In
    particular un-pausing does not resume a game whose timer is gone. *)
Theorem timer_stays_off_without_restart :
  forall a a',
    appSteps a a' ->
    armed a = false ->
    armed a' = false /\
    snake (game a') = snake (game a) /\
    food (game a') = food (game a) /\
    gameOver (game a') = gameOver (game a) /\
    score (game a') = score (game a) /\
    speed (game a') = speed (game a).
Proof.
  intros a a' H Hoff.
  destruct (appSteps_disarmed a a' H Hoff) as [Hoff' Hk].
  split; [exact Hoff' | exact Hk].
Qed.

Lemma timer_stays_off_without_restart_witness :
  armed (onInput togglePause mountedApp) = false /\
  snake (game (onInput togglePause mountedApp)) = [mkPosition 10 10] /\
  isPaused (game (onInput togglePause mountedApp)) = false.
Proof.
  destruct (timer_stays_off_without_restart mountedApp
              (onInput togglePause mountedApp)
              (rt1n_trans _ _ _ _ _ (app_pause mountedApp) (rt1n_refl _ _ _))
              eq_refl) as [Hoff [Hs _]].
  split; [exact Hoff|]. split; [exact Hs | reflexivity].
Defined.

(** X17.  The first render leaves the game paused with no interval
    set, and the snake does not move before Restart is clicked: after
    any run of keys, arrow buttons, swipes and clicks on Start / Pause
    the timer is still off and the snake is still the single cell
    (10,10) with score 0. *)
Theorem mounted_game_waits_for_restart :
  forall draws a0 rest a,
    appMount draws = Some (a0, rest) ->
    appSteps a0 a ->
    armed a0 = false /\
    isPaused (game a0) = true /\
    armed a = false /\
    snake (game a) = [mkPosition 10 10] /\
    score (game a) = 0 /\
    gameOver (game a) = false.
Proof.
  intros draws a0 rest a Hm Hsteps.
  unfold appMount, bind, ret in Hm.
  destruct (mount draws) as [[g r]|] eqn:Hg; [|discriminate].
  unfold mount in Hg. apply initFoodEffect_inv in Hg. destruct Hg as [f [_ ->]].
  inversion Hm; subst a0 rest. clear Hm.
  destruct (appSteps_disarmed _ a Hsteps eq_refl) as [Hoff [Hs [_ [Hgo [Hsc _]]]]].
  cbn [game] in Hs, Hgo, Hsc.
  split; [reflexivity|]. split; [reflexivity|]. split; [exact Hoff|].
  split; [exact Hs|]. split; [exact Hsc | exact Hgo].
Qed.

Lemma mounted_game_waits_for_restart_witness :
  armed (onInput (fun g => handleKeyDown g " ") mountedApp) = false /\
  snake (game (onInput (fun g => handleKeyDown g " ") mountedApp))
  = [mkPosition 10 10].
Proof.
  destruct (mounted_game_waits_for_restart drawsCentreTwice mountedApp []
              (onInput (fun g => handleKeyDown g " ") mountedApp)
              eq_refl
              (rt1n_trans _ _ _ _ _ (app_key mountedApp " ") (rt1n_refl _ _ _)))
    as [_ [_ [Hoff [Hs _]]]].
  split; [exact Hoff | exact Hs].
Defined.

(** X18.  Restart sets the timer: whatever the state before, after a
    restart an interval is live and the game is neither paused nor
    over. *)
Theorem restart_arms_timer :
  forall a draws a' rest,
    appRestart a draws = Some (a', rest) ->
    armed a' = true /\
    isPaused (game a') = false /\
    gameOver (game a') = false /\
    snake (game a') = [mkPosition 10 10].
Proof.
  intros a draws a' rest H. unfold appRestart, bind in H.
  destruct (resetGame (game a) draws) as [[u mid]|] eqn:Hr; [|discriminate].
  apply settle_inv in H. destruct H as [g [Hc ->]].
  assert (Hg : restart (game a) draws = Some (g, rest)).
  { unfold restart, bind. rewrite Hr. exact Hc. }
  apply restart_inv in Hg. destruct Hg as [f [_ ->]].
  unfold resetGame, bind, ret in Hr.
  destruct (generateFood (snake (game a)) draws) as [[f1 r1]|]; [|discriminate].
  inversion Hr; subst u mid. repeat split.
Qed.

Lemma restart_arms_timer_witness :
  exists a',
    appRestart mountedApp [2; 1; 2; 1] = Some (a', []) /\
    armed a' = true.
Proof.
  eexists. split; [reflexivity|].
  exact (proj1 (restart_arms_timer mountedApp [2; 1; 2; 1]
                  _ [] eq_refl)).
Defined.

(** X19.  Pausing takes effect one move late.  In a game under way the
    click on Pause leaves the interval live; when the next firing is
    not a hit it still moves the head one cell on, and only the commit
    of that move removes the interval. *)
Theorem pause_stops_after_next_move :
  forall a seg0 tl draws a' rest,
    armed a = true ->
    isPaused (game a) = false ->
    snake (game a) = seg0 :: tl ->
    hitsWall (moveHead (direction (game a)) seg0) = false ->
    hitsSelf (snake (game a)) (moveHead (direction (game a)) seg0) = false ->
    appTick (onInput togglePause a) draws = Some (a', rest) ->
    armed (onInput togglePause a) = true /\
    hd_error (snake (game a')) = Some (moveHead (direction (game a)) seg0) /\
    isPaused (game a') = true /\
    armed a' = false.
Proof.
  intros [g on] seg0 tl draws a' rest; cbn [game armed].
  intros -> Hp Hs Hw Hb H.
  split; [reflexivity|].
  unfold appTick, bind in H. unfold onInput in H; cbn [game armed] in H.
  destruct (moveSnake (togglePause g) draws) as [[u mid]|] eqn:Hm; [|discriminate].
  apply settle_inv in H. destruct H as [g' [Hc ->]]. cbn [game armed].
  assert (Ha : advance (togglePause g) draws = Some (g', rest)).
  { unfold advance, bind. rewrite Hm. exact Hc. }
  assert (Hs' : snake (togglePause g) = seg0 :: tl) by exact Hs.
  assert (Hrep : snakeReplaced u = true /\
                 hd_error (snake (next u)) = Some (moveHead (direction g) seg0) /\
                 isPaused (next u) = true).
  { destruct (samePos (moveHead (direction g) seg0) (food g)) eqn:Hf.
    - apply samePos_true_iff in Hf.
      unfold moveSnake in Hm. rewrite Hs' in Hm.
      change (direction (togglePause g)) with (direction g) in Hm.
      rewrite Hw in Hm. rewrite Hs in Hb. rewrite Hb in Hm.
      change (food (togglePause g)) with (food g) in Hm.
      apply samePos_true_iff in Hf. unfold samePos in Hf. rewrite Hf in Hm.
      unfold bind, ret in Hm.
      destruct (generateFood (seg0 :: tl) draws) as [[f1 r1]|]; [|discriminate].
      destruct (speed (togglePause g) >? 50); inversion Hm; subst u;
        cbn; rewrite Hp; repeat split.
    - unfold moveSnake in Hm. rewrite Hs' in Hm.
      change (direction (togglePause g)) with (direction g) in Hm.
      rewrite Hw in Hm. rewrite Hs in Hb. rewrite Hb in Hm.
      change (food (togglePause g)) with (food g) in Hm.
      unfold samePos in Hf. rewrite Hf in Hm.
      unfold ret in Hm.
      assert (Hu : u = mkUpdate
                         (setSnake (togglePause g)
                            (removelast (moveHead (direction g) seg0 :: seg0 :: tl)))
                         true) by congruence.
      subst u. cbn [snakeReplaced next setSnake snake isPaused togglePause setIsPaused].
      rewrite Hp. repeat split. }
  destruct Hrep as [Hrep [Hhd Hpa]].
  apply commit_frame in Hc. destruct Hc as [Hsn [_ [Hgo [Hpau _]]]].
  rewrite Hrep, Hsn, Hpau. split; [exact Hhd|]. split; [exact Hpa|].
  unfold gameLoopEffect. rewrite Hpau, Hpa. reflexivity.
Qed.

Lemma pause_stops_after_next_move_witness :
  exists a',
    appTick (onInput togglePause runningApp) drawsCentreTwice
    = Some (a', [10; 10; 2; 1]) /\
    hd_error (snake (game a')) = Some (mkPosition 13 10) /\
    armed a' = false.
Proof.
  eexists. split; [reflexivity|].
  destruct (pause_stops_after_next_move runningApp (mkPosition 12 10) []
              drawsCentreTwice _ [10; 10; 2; 1]
              eq_refl eq_refl eq_refl eq_refl eq_refl eq_refl)
    as [_ [Hhd [_ Hoff]]].
  split; [exact Hhd | exact Hoff].
Defined.

(** X20.  A hit does not stop the timer: the fatal firing sets
    [gameOver], writes nothing the game-loop effect depends on, and
    the interval it came from stays live. *)
Theorem timer_survives_game_over :
  forall a seg0 tl draws,
    armed a = true ->
    snake (game a) = seg0 :: tl ->
    hitsWall (moveHead (direction (game a)) seg0) = true \/
    hitsSelf (snake (game a)) (moveHead (direction (game a)) seg0) = true ->
    appTick a draws
    = Some ({| game := setGameOver (game a) true; armed := true |}, draws).
Proof.
  intros [g on] seg0 tl draws; cbn [game armed]. intros -> Hs Hhit.
  destruct (advance_fatal g seg0 tl draws Hs Hhit) as [Hm _].
  unfold appTick, bind; cbn [game]. rewrite Hm.
  unfold settle, commit, bind, ret; cbn [snakeReplaced next armed]. reflexivity.
Qed.

Lemma timer_survives_game_over_witness :
  appTick {| game := scenarioWall; armed := true |} drawsCentreTwice
  = Some ({| game := setGameOver scenarioWall true; armed := true |},
          drawsCentreTwice).
Proof.
  exact (timer_survives_game_over {| game := scenarioWall; armed := true |}
           (mkPosition 0 5) [mkPosition 1 5] drawsCentreTwice
           eq_refl eq_refl (or_introl eq_refl)).
Defined.
